(** * typhon.port_graph: the port graph monitor and the automatic layout

    A shallow embedding of [src/typhon/port_graph.py]:
    - [PortGraphMonitor.get_edges] and [PortGraphMonitor.update_ports]
      (the query / diff / commit / emit cycle and the subscription map),
    - the [edges_added] loop of [PortGraphFlowchart._ports_updated],
    - [position_nodes] with its inner recursive [position_port].

    Port names are Python [str]; they are compared the way Python compares
    strings, character by character ([String.le]).  A Python [set] is a
    [gset], the subscription dictionary (only looked up, stored to and
    popped from) is a [gmap], and the two dictionaries whose enumeration
    order the code depends on ([port_map], [positions]) are insertion-ordered
    association lists. *)

From stdpp Require Import base numbers list sorting relations gmap strings.

Open Scope Z_scope.

(** ** Python values *)

(** An ophyd plugin, as far as this module looks at it:
    [isinstance(plugin, CamBase)] and the [nd_array_port] attribute
    ([None]: the attribute is missing, so [hasattr] is false and reading it
    raises [AttributeError]; [Some v]: [plugin.nd_array_port.get()] is [v]). *)
Record Plugin := mkPlugin {
  is_CamBase : bool;
  nd_array_port : option string;
}.

Definition edge : Type := string * string.

(** Python compares tuples lexicographically: first component first. *)
Definition edge_le (e1 e2 : edge) : Prop :=
  String.le e1.1 e2.1 ∧ (e1.1 = e2.1 → String.le e1.2 e2.2).

Global Instance edge_le_dec : RelDecision edge_le.
Proof. intros e1 e2. unfold edge_le. apply _. Defined.

(** [sorted(...)] on names and on (src, dest) tuples. *)
Definition sorted_str (l : list string) : list string := merge_sort String.le l.
Definition sorted_edges (l : list edge) : list edge := merge_sort edge_le l.

(** ** Insertion-ordered dictionaries with string keys *)

Section dict.
Context {V : Type}.

Definition dict_keys (d : list (string * V)) : list string := d.*1.

Fixpoint dict_get (d : list (string * V)) (k : string) : option V :=
  match d with
  | [] => None
  | (k', v) :: d' => if decide (k = k') then Some v else dict_get d' k
  end.

(** [d[k] = v]: an existing key keeps its place, a new key goes last. *)
Fixpoint dict_set (k : string) (v : V) (d : list (string * V))
  : list (string * V) :=
  match d with
  | [] => [(k, v)]
  | (k', v') :: d' =>
      if decide (k = k') then (k', v) :: d' else (k', v') :: dict_set k v d'
  end.
End dict.

(** ** Exceptions *)

Inductive exn := KeyError | AttributeError.

(** ** PortGraphMonitor *)

Module Monitor.

(** The attributes of the monitor that [update_ports] reads and writes. *)
Record state := mkState {
  known_ports : list string;
  edges : gset edge;
  _subscriptions : gmap string nat;
}.

(** [__init__] *)
Definition init : state :=
  {| known_ports := []; edges := ∅; _subscriptions := ∅ |}.

(** The hardware layer is not part of this module (it is ophyd's signal
    object); the monitor calls [subscribe], which registers the callback
    and hands back a fresh callback id, and [unsubscribe], which removes
    the registration with that id.  [live] is the set of registrations
    (port, callback id) that are in force. *)
Record hardware := mkHardware {
  live : gset (string * nat);
  next_cid : nat;
}.

Definition subscribe (port : string) (hw : hardware) : nat * hardware :=
  (next_cid hw,
   {| live := {[ (port, next_cid hw) ]} ∪ live hw;
      next_cid := S (next_cid hw) |}).

Definition unsubscribe (port : string) (cid : nat) (hw : hardware)
  : hardware :=
  {| live := live hw ∖ {[ (port, cid) ]}; next_cid := next_cid hw |}.

(** [get_edges]: one edge (upstream, port) for every port whose plugin has
    the [nd_array_port] attribute; the [AttributeError] of the others is
    swallowed. *)
Definition get_edges (port_map : list (string * Plugin)) : gset edge :=
  foldl (λ (edges : gset edge) (item : string * Plugin),
           match nd_array_port item.2 with
           | None => edges
           | Some in_port => edges ∪ {[ (in_port, item.1) ]}
           end)
        ∅ port_map.

(** [cameras] *)
Definition cameras (port_map : list (string * Plugin)) : list string :=
  (filter (λ item, is_CamBase item.2 = true) port_map).*1.

(** The four lists of one update, the arguments of the [update] signal. *)
Record report := mkReport {
  ports_removed : list string;
  ports_added : list string;
  edges_removed : list edge;
  edges_added : list edge;
}.

Definition has_changes (r : report) : bool :=
  negb (bool_decide (ports_removed r = []) &&
        bool_decide (ports_added r = []) &&
        bool_decide (edges_removed r = []) &&
        bool_decide (edges_added r = [])).

(** The Qt signals. *)
Inductive signal :=
| port_removed (port : string)
| port_added (port : string)
| edge_removed (src dest : string)
| edge_added (src dest : string)
| update (r : report).

(** Lines 403-409: in the order of the sorted items, subscribe to every
    port that has no subscription yet and whose plugin has the
    attribute. *)
Definition subscribe_new (port_map : list (string * Plugin))
    (subs : gmap string nat) (hw : hardware) : gmap string nat * hardware :=
  foldl (λ (acc : gmap string nat * hardware) (item : string * Plugin),
           if bool_decide (acc.1 !! item.1 = None) &&
              bool_decide (is_Some (nd_array_port item.2))
           then let '(cid, hw') := subscribe item.1 acc.2 in
                (<[ item.1 := cid ]> acc.1, hw')
           else acc)
        (subs, hw)
        (merge_sort (λ a b : string * Plugin, String.le a.1 b.1) port_map).

(** Lines 411-414. *)
Definition diff (st : state) (port_map : list (string * Plugin))
    (new_edges : gset edge) : report :=
  {| ports_removed :=
       sorted_str (elements (list_to_set (known_ports st)
                               ∖ list_to_set (dict_keys port_map)
                             : gset string));
     ports_added :=
       sorted_str (elements (list_to_set (dict_keys port_map)
                               ∖ list_to_set (known_ports st)
                             : gset string));
     edges_removed := sorted_edges (elements (edges st ∖ new_edges));
     edges_added := sorted_edges (elements (new_edges ∖ edges st)) |}.

(** Lines 419-422: pop the subscription of every removed port; when there
    was one, look the port up in [port_map] and unsubscribe through its
    plugin.  Either lookup can raise; what was popped stays popped. *)
Fixpoint release (port_map : list (string * Plugin)) (removed : list string)
    (subs : gmap string nat) (hw : hardware)
  : gmap string nat * hardware * option exn :=
  match removed with
  | [] => (subs, hw, None)
  | port :: rest =>
      match subs !! port with
      | None => release port_map rest subs hw
      | Some sub =>
          let subs' := delete port subs in
          match dict_get port_map port with
          | None => (subs', hw, Some KeyError)
          | Some plugin =>
              match nd_array_port plugin with
              | None => (subs', hw, Some AttributeError)
              | Some _ =>
                  release port_map rest subs' (unsubscribe port sub hw)
              end
          end
      end
  end.

(** Lines 424-438. *)
Definition emit (r : report) : list signal :=
  (port_removed <$> ports_removed r) ++
  (port_added <$> ports_added r) ++
  ((λ e : edge, edge_removed e.1 e.2) <$> edges_removed r) ++
  ((λ e : edge, edge_added e.1 e.2) <$> edges_added r) ++
  (if has_changes r then [update r] else []).

Inductive outcome :=
| Completed (r : report) (emitted : list signal)
| Raised (e : exn).

(** [update_ports], given what the two queries at its top returned. *)
Definition update_ports_with (st : state) (hw : hardware)
    (port_map : list (string * Plugin)) (new_edges : gset edge)
  : state * hardware * outcome :=
  let '(subs1, hw1) := subscribe_new port_map (_subscriptions st) hw in
  let r := diff st port_map new_edges in
  let '(subs2, hw2, err) := release port_map (ports_removed r) subs1 hw1 in
  ({| known_ports := dict_keys port_map;
      edges := new_edges;
      _subscriptions := subs2 |},
   hw2,
   match err with
   | Some e => Raised e
   | None => Completed r (emit r)
   end).

(** [update_ports]: the edges are read off the same port map. *)
Definition update_ports (st : state) (hw : hardware)
    (port_map : list (string * Plugin)) : state * hardware * outcome :=
  update_ports_with st hw port_map (get_edges port_map).

End Monitor.

(** ** PortGraphFlowchart._ports_updated, the [edges_added] loop *)

Module Flowchart.

(** Lines 497-515.  [nodes] are the keys of [_port_nodes] when the loop
    starts, [es] is [_edges]; the second component collects the edges the
    [except KeyError] branch reports through [logger.debug] and skips. *)
Definition connect_added (nodes : gset string) (edges_added : list edge)
    (es : gset edge) : gset edge * list edge :=
  foldl (λ (acc : gset edge * list edge) (e : edge),
           if bool_decide (e.1 ∈ nodes) && bool_decide (e.2 ∈ nodes)
           then (acc.1 ∪ {[ e ]}, acc.2)
           else (acc.1, acc.2 ++ [e]))
        (es, []) edges_added.

End Flowchart.

(** ** position_nodes *)

(** [enumerate(l)], counting from [i]. *)
Fixpoint enumerate_from (i : Z) (l : list string) : list (Z * string) :=
  match l with
  | [] => []
  | d :: l' => (i, d) :: enumerate_from (i + 1) l'
  end.

(** A [for] loop whose body may fail to return: the state goes through the
    bodies in order, and the loop stops at the first that is [None]. *)
Fixpoint for_each {A B} (l : list B) (body : B → A → option A) (a : A)
  : option A :=
  match l with
  | [] => Some a
  | b :: l' => a' ← body b a; for_each l' body a'
  end.

Module Layout.

(** [positions]: port name to (x, y). *)
Abbreviation positions := (list (string * (Z * Z))).

(** [max(y for x, y in positions.values())].  Python raises [ValueError]
    on an empty dictionary; the code only evaluates this right after a
    port was placed or under [if positions:] (see
    [position_port_nonempty]), so the empty case is never reached. *)
Definition max_y (pos : positions) : Z :=
  match pos.*2.*2 with
  | [] => 0
  | y :: ys => foldl Z.max y ys
  end.

Section position_nodes.
(** The spacings and the start are whatever numbers the caller passes.
    They are taken here as Python ints, on which Python computes exactly:
    with integer arguments [position_nodes] does what is written here.
    With float arguments (the defaults are the floats 150.0 and 60.0) the
    same sums and products are rounded, which these definitions do not
    show; what is proved below about exact distances and sums is proved
    for integer arguments, and the theorems about which ports are placed,
    by which call and in which order do not depend on the arithmetic.
    [edges] is the iterable in the order Python enumerates it. *)
Variable edges : list edge.
Variable port_map : list (string * Plugin).
Variables x_spacing y_spacing : Z.

(** [[dest for src, dest in edges if src == port and src != dest]] *)
Definition dests (port : string) : list string :=
  (filter (λ e : edge, e.1 = port ∧ e.1 ≠ e.2) edges).*2.

(** The arguments of the recursive calls that [position_port(port, x, y)]
    makes, in order. *)
Definition child_calls (port : string) (x y : Z)
  : list (string * (Z * Z)) :=
  let ds := dests port in
  let y := y - y_spacing * (Z.of_nat (length ds) `div` 2) in
  (λ '(idx, dest), (dest, (x + x_spacing, y + idx * y_spacing)))
    <$> enumerate_from 0 (sorted_str ds).

(** The inner [position_port].  It recurses on the graph, not on a
    datum, so it carries a bound on the nesting of calls: [None] means
    the bound was hit. *)
Fixpoint position_port (fuel : nat) (port : string) (x y : Z)
    (pos : positions) : option positions :=
  match fuel with
  | O => None
  | S fuel' =>
      for_each (child_calls port x y)
        (λ call pos', position_port fuel' call.1 call.2.1 call.2.2 pos')
        (dict_set port (x, y) pos)
  end.

(** Lines 584-587: the loop over the sorted cameras, threading the
    cursor [y] and the dictionary. *)
Definition place_cameras (fuel : nat) (x y : Z)
  : option (Z * positions) :=
  for_each (sorted_str (Monitor.cameras port_map))
    (λ camera '(y, pos),
       pos' ← position_port fuel camera x y pos;
       Some (y_spacing + max_y pos', pos'))
    (y, []).

(** Lines 594-596: the loop over the ports that have no position. *)
Definition place_rest (fuel : nat) (x y : Z) (pos : positions)
  : option positions :=
  for_each (dict_keys port_map)
    (λ port pos',
       if bool_decide (port ∈ dict_keys pos') then Some pos'
       else position_port fuel port x y pos')
    pos.

Definition position_nodes (fuel : nat) (x y : Z) : option positions :=
  '(_, pos) ← place_cameras fuel x y;
  let y := match pos with
           | [] => y
           | _ => y_spacing + max_y pos
           end in
  place_rest fuel x y pos.

End position_nodes.

End Layout.

(** ** The report read as a patch

    What "applying the report to the previous state" means: drop the removed
    ports and edges, then add the added ones. *)
Definition apply_report (ports : list string) (es : gset edge)
    (r : Monitor.report) : list string * gset edge :=
  (filter (λ p, p ∉ Monitor.ports_removed r) ports ++ Monitor.ports_added r,
   (es ∖ list_to_set (Monitor.edges_removed r))
     ∪ list_to_set (Monitor.edges_added r)).

(** ** Claims about the report, as predicates *)

(** "No edge of [edges_added] names a port that is missing from the queried
    port map", for every refresh that completes. *)
Definition no_dangling_edge_reported : Prop :=
  ∀ st hw pm st' hw' r sigs,
    Monitor.update_ports st hw pm = (st', hw', Monitor.Completed r sigs) →
    ∀ e, e ∈ Monitor.edges_added r → e.1 ∈ dict_keys pm ∧ e.2 ∈ dict_keys pm.

(** ** The parent/child relation of the layout *)

(** [b] is a child of [a]: an edge from [a] to another port [b]. *)
Definition child_of (edges : list edge) (a b : string) : Prop :=
  (a, b) ∈ edges ∧ a ≠ b.

(** No port is its own descendant. *)
Definition acyclic (edges : list edge) : Prop :=
  ∀ a, ¬ tc (child_of edges) a a.

(** [chain edges p l]: [l] lists a descent from [p], child by child. *)
Fixpoint chain (edges : list edge) (p : string) (l : list string) : Prop :=
  match l with
  | [] => True
  | c :: l' => child_of edges p c ∧ chain edges c l'
  end.

(** The keys of [pos1] are keys of [pos2]: the dictionary only grew. *)
Definition keys_incl (pos1 pos2 : Layout.positions) : Prop :=
  dict_keys pos1 ⊆ dict_keys pos2.

(** The same for the state of the loop over the cameras, cursor and
    dictionary. *)
Definition cursor_incl (a b : Z * Layout.positions) : Prop :=
  keys_incl a.2 b.2.

(** "Any two distinct ports in the same column are at least [y_spacing]
    apart", for a finished layout. *)
Definition column_separated (y_spacing : Z) (pos : Layout.positions) : Prop :=
  ∀ p q xp yp xq yq,
    p ≠ q → dict_get pos p = Some (xp, yp) → dict_get pos q = Some (xq, yq) →
    xp = xq → y_spacing ≤ Z.abs (yp - yq).

(** ** The scenario of the specification *)

Definition camA : string * Plugin := ("camA", mkPlugin true None).
Definition pluginA : string * Plugin :=
  ("pluginA", mkPlugin false (Some "camA")).
Definition hw0 : Monitor.hardware := Monitor.mkHardware ∅ 0.

(** ** The subscription map against the hardware layer *)

(** The loop of lines 403-409 over a list of items already in order. *)
Definition subscribe_items (items : list (string * Plugin))
    (subs : gmap string nat) (hw : Monitor.hardware)
  : gmap string nat * Monitor.hardware :=
  foldl (λ (acc : gmap string nat * Monitor.hardware) (item : string * Plugin),
           if bool_decide (acc.1 !! item.1 = None) &&
              bool_decide (is_Some (nd_array_port item.2))
           then let '(cid, hw') := Monitor.subscribe item.1 acc.2 in
                (<[ item.1 := cid ]> acc.1, hw')
           else acc)
        (subs, hw) items.

(** Every handle held in [_subscriptions] is a registration in force. *)
Definition handles_live (subs : gmap string nat) (hw : Monitor.hardware)
  : Prop :=
  ∀ p c, subs !! p = Some c → (p, c) ∈ Monitor.live hw.

(** The registrations in force are exactly the handles held. *)
Definition in_step (subs : gmap string nat) (hw : Monitor.hardware) : Prop :=
  ∀ p c, (p, c) ∈ Monitor.live hw ↔ subs !! p = Some c.

(** ** The monitor with its cached port map *)

Module Cached.

(** [update_ports] as it is called: the port map comes from the [port_map]
    property, which asks the detector only while the cache [_port_map] is
    empty, and the edges are read off the cached plugin objects at the time
    of the call. *)
Record monitor := mkMonitor {
  attrs : Monitor.state;
  _port_map : list (string * Plugin);
}.

(** [__init__] *)
Definition init : monitor := {| attrs := Monitor.init; _port_map := [] |}.

(** What the upstream signal of the plugin object cached under each port
    reads at the time of a call. *)
Definition reading : Type := string → string.

(** The cached plugin objects as they read now: what class an object is
    of and whether it has the attribute do not change, the value of the
    attribute is the current one. *)
Definition observe (now : reading) (objs : list (string * Plugin))
  : list (string * Plugin) :=
  (λ item : string * Plugin,
     (item.1, mkPlugin (is_CamBase item.2)
                       (nd_array_port item.2 ≫= λ _, Some (now item.1))))
    <$> objs.

(** [update_port_map] (lines 334-340), as far as [_port_map] goes: [det] is
    what [get_asyn_port_dictionary] returns. *)
Definition update_port_map (det : list (string * Plugin)) (m : monitor)
  : monitor :=
  {| attrs := attrs m; _port_map := det |}.

(** The [port_map] property (lines 342-347). *)
Definition port_map (det : list (string * Plugin)) (m : monitor)
  : monitor * list (string * Plugin) :=
  let m' := if bool_decide (_port_map m = []) then update_port_map det m
            else m in
  (m', _port_map m').

(** [update_ports] (lines 397-438): [self.port_map] at line 399 and again
    inside [get_edges] at line 376, then the body. *)
Definition update_ports (now : reading) (det : list (string * Plugin))
    (m : monitor) (hw : Monitor.hardware)
  : monitor * Monitor.hardware * Monitor.outcome :=
  let '(m1, objs) := port_map det m in
  let '(m2, objs') := port_map det m1 in
  let '(st', hw', out) :=
    Monitor.update_ports_with (attrs m2) hw (observe now objs)
      (Monitor.get_edges (observe now objs')) in
  ({| attrs := st'; _port_map := _port_map m2 |}, hw', out).

(** The states that calls of [update_ports] lead to from the initial one. *)
Inductive reachable : monitor → Monitor.hardware → Prop :=
| reachable_init hw : reachable init hw
| reachable_update now det m hw :
    reachable m hw →
    reachable (update_ports now det m hw).1.1 (update_ports now det m hw).1.2.

End Cached.

(** [at_depth edges pm x0 xs k x]: [k] ends a descent from a key of the
    port map, and [x] is the column that many steps to the right of [x0]. *)
Definition at_depth (edges : list edge) (pm : list (string * Plugin))
    (x0 xs : Z) (k : string) (x : Z) : Prop :=
  ∃ root l, root ∈ dict_keys pm ∧ chain edges root l ∧
            last (root :: l) = Some k ∧ x = x0 + Z.of_nat (length l) * xs.

(** ** PortGraphFlowchart._ports_updated from the [ports_added] loop on *)

Module Handler.

(** The attributes of the flowchart that the handler works on:
    [_port_nodes] (of which only the keys matter here) and [_edges]. *)
Record flowchart := mkFlowchart {
  _port_nodes : gset string;
  _edges : gset edge;
}.

(** Lines 492-495: a node for every added port.  [self.port_map[port]]
    raises [KeyError] for a port that is not a key of the port map. *)
Fixpoint add_ports (port_map : list (string * Plugin))
    (ports_added : list string) (nodes : gset string)
  : gset string * option exn :=
  match ports_added with
  | [] => (nodes, None)
  | port :: rest =>
      match dict_get port_map port with
      | None => (nodes, Some KeyError)
      | Some _ => add_ports port_map rest ({[ port ]} ∪ nodes)
      end
  end.

(** Lines 521-523: the node of every positioned port is looked up;
    [self._port_nodes[port]] raises [KeyError] for a port without one. *)
Fixpoint set_positions (nodes : gset string) (pos : Layout.positions)
  : option exn :=
  match pos with
  | [] => None
  | (port, _) :: pos' =>
      if bool_decide (port ∈ nodes) then set_positions nodes pos'
      else Some KeyError
  end.

(** Lines 492-527, with [_auto_position] as [__init__] sets it and the
    spacings at their defaults (1.5 times the width 100 and the height 40
    of a node item).  The result is [None] when [position_nodes] does not
    return; otherwise the flowchart, the edges that were skipped, and the
    exception that ended the handler, if any.  The set [_edges] is handed to
    [position_nodes] in the order of [elements]. *)
Definition ports_updated_tail (fuel : nat) (fc : flowchart)
    (port_map : list (string * Plugin)) (r : Monitor.report)
  : option (flowchart * list edge * option exn) :=
  let '(nodes, err) := add_ports port_map (Monitor.ports_added r)
                         (_port_nodes fc) in
  match err with
  | Some e => Some (mkFlowchart nodes (_edges fc), [], Some e)
  | None =>
      let '(es, skipped) :=
        Flowchart.connect_added nodes (Monitor.edges_added r) (_edges fc) in
      pos ← Layout.position_nodes (elements es) port_map 150 60 fuel 0 0;
      Some (mkFlowchart nodes es, skipped, set_positions nodes pos)
  end.

(** Every edge of [_edges] joins two ports that have a node. *)
Definition edges_have_nodes (fc : flowchart) : Prop :=
  ∀ e, e ∈ _edges fc → e.1 ∈ _port_nodes fc ∧ e.2 ∈ _port_nodes fc.

End Handler.

(** The edges between two different ports. *)
Definition without_self_edges (edges : list edge) : list edge :=
  filter (λ e : edge, e.1 ≠ e.2) edges.

(** A dictionary of positions moved by ([dx], [dy]). *)
Definition shifted (dx dy : Z) (pos : Layout.positions) : Layout.positions :=
  (λ item : string * (Z * Z), (item.1, (item.2.1 + dx, item.2.2 + dy)))
    <$> pos.

(** * Properties *)

(** ** The orders behind [sorted] *)

Global Instance edge_le_total : Total edge_le.
Proof.
  intros [a b] [c d]. unfold edge_le. simpl.
  destruct (decide (a = c)) as [->|Hne].
  - destruct (total String.le b d); [left|right]; split; done.
  - destruct (total String.le a c); [left|right]; split; try done;
      intros ?; congruence.
Qed.

Global Instance edge_le_trans : Transitive edge_le.
Proof.
  intros [a1 b1] [a2 b2] [a3 b3]. unfold edge_le. simpl.
  intros [H12 K12] [H23 K23]. split; [by etrans|].
  intros ->.
  assert (a2 = a3) as -> by (by apply (anti_symm String.le)).
  etrans; [by apply K12 | by apply K23].
Qed.

Global Instance edge_le_antisym : AntiSymm (=) edge_le.
Proof.
  intros [a1 b1] [a2 b2]. unfold edge_le. simpl. intros [H12 K12] [H21 K21].
  assert (a1 = a2) as -> by (by apply (anti_symm String.le)).
  f_equal. apply (anti_symm String.le); auto.
Qed.

Section sorted.
Context {A : Type} (R : relation A) `{!RelDecision R}.
Context `{!Total R, !Transitive R, !AntiSymm (=) R}.

Lemma elem_of_merge_sort (l : list A) (x : A) :
  x ∈ merge_sort R l ↔ x ∈ l.
Proof. by rewrite merge_sort_Permutation. Qed.

Lemma NoDup_merge_sort (l : list A) : NoDup l → NoDup (merge_sort R l).
Proof. by rewrite merge_sort_Permutation. Qed.

(** [sorted] does not see the order of its argument. *)
Lemma merge_sort_perm (l1 l2 : list A) :
  l1 ≡ₚ l2 → merge_sort R l1 = merge_sort R l2.
Proof.
  intros Hp. apply (Sorted_unique R); try apply Sorted_merge_sort; try done.
  by rewrite !merge_sort_Permutation.
Qed.
End sorted.

(** ** Dictionaries *)

Section dict_facts.
Context {V : Type}.
Implicit Types (d : list (string * V)) (k : string) (v : V).

Lemma dict_get_None d k : dict_get d k = None ↔ k ∉ dict_keys d.
Proof.
  unfold dict_keys. induction d as [|[k' v'] d IH]; simpl.
  - split; [intros _; apply not_elem_of_nil | done].
  - rewrite not_elem_of_cons. case_decide; [naive_solver|].
    rewrite IH. naive_solver.
Qed.

Lemma dict_get_Some d k v : dict_get d k = Some v → (k, v) ∈ d.
Proof.
  induction d as [|[k' v'] d IH]; simpl; [done|].
  case_decide; intros ?; simplify_eq; [left | right; auto].
Qed.

Lemma dict_keys_set d k v k' :
  k' ∈ dict_keys (dict_set k v d) ↔ k' = k ∨ k' ∈ dict_keys d.
Proof.
  unfold dict_keys. induction d as [|[k0 v0] d IH]; simpl.
  - rewrite list_elem_of_singleton. set_solver.
  - case_decide; simpl; rewrite ?elem_of_cons, ?IH; naive_solver.
Qed.

Lemma dict_get_set d k v k' :
  dict_get (dict_set k v d) k' =
  if decide (k' = k) then Some v else dict_get d k'.
Proof.
  induction d as [|[k0 v0] d IH]; simpl.
  - repeat case_decide; congruence.
  - destruct (decide (k = k0)) as [->|]; simpl;
      repeat case_decide; simplify_eq; done.
Qed.

Lemma dict_set_nonempty d k v : dict_set k v d ≠ [].
Proof. destruct d as [|[??] ?]; simpl; [done|]. by case_decide. Qed.
End dict_facts.

(** ** The monitor *)

Section monitor_facts.
Import Monitor.
Implicit Types (st : state) (hw : hardware) (pm : list (string * Plugin)).
Implicit Types (E : gset edge) (e : edge).

Lemma elem_of_get_edges_acc pm (acc : gset edge) (s d : string) :
  (s, d) ∈ foldl (λ (edges : gset edge) (item : string * Plugin),
                    match nd_array_port item.2 with
                    | None => edges
                    | Some in_port => edges ∪ {[ (in_port, item.1) ]}
                    end) acc pm
  ↔ (s, d) ∈ acc ∨ ∃ cpt, (d, cpt) ∈ pm ∧ nd_array_port cpt = Some s.
Proof.
  revert acc. induction pm as [|[port cpt] pm IH]; intros acc; simpl.
  - split; [by left | intros [?|(? & []%elem_of_nil & _)]; done].
  - rewrite IH. setoid_rewrite elem_of_cons.
    destruct (nd_array_port cpt) as [in_port|] eqn:Hattr.
    + rewrite elem_of_union, elem_of_singleton. split.
      * intros [[?|?]|(c & ? & ?)]; simplify_eq; eauto 6.
      * intros [?|(c & [?|?] & ?)]; simplify_eq; eauto 6.
    + split.
      * intros [?|(c & ? & ?)]; eauto 6.
      * intros [?|(c & [?|?] & ?)]; simplify_eq; eauto 6.
  Qed.

Lemma elem_of_get_edges pm (s d : string) :
  (s, d) ∈ get_edges pm ↔ ∃ cpt, (d, cpt) ∈ pm ∧ nd_array_port cpt = Some s.
Proof.
  unfold get_edges. rewrite elem_of_get_edges_acc. set_solver.
Qed.

Lemma elem_of_dict_keys {V} (d : list (string * V)) (k : string) :
  k ∈ dict_keys d ↔ ∃ v, (k, v) ∈ d.
Proof.
  unfold dict_keys. rewrite list_elem_of_fmap. split.
  - intros ([k' v] & -> & ?). eauto.
  - intros (v & ?). by exists (k, v).
Qed.

(** What [diff] puts in its four lists. *)
Lemma elem_of_ports_removed st pm E (p : string) :
  p ∈ ports_removed (diff st pm E) ↔ p ∈ known_ports st ∧ p ∉ dict_keys pm.
Proof.
  simpl. unfold sorted_str. rewrite elem_of_merge_sort, elem_of_elements.
  set_solver.
Qed.

Lemma elem_of_ports_added st pm E (p : string) :
  p ∈ ports_added (diff st pm E) ↔ p ∈ dict_keys pm ∧ p ∉ known_ports st.
Proof.
  simpl. unfold sorted_str. rewrite elem_of_merge_sort, elem_of_elements.
  set_solver.
Qed.

Lemma elem_of_edges_removed st pm E e :
  e ∈ edges_removed (diff st pm E) ↔ e ∈ edges st ∧ e ∉ E.
Proof.
  simpl. unfold sorted_edges. rewrite elem_of_merge_sort, elem_of_elements.
  set_solver.
Qed.

Lemma elem_of_edges_added st pm E e :
  e ∈ edges_added (diff st pm E) ↔ e ∈ E ∧ e ∉ edges st.
Proof.
  simpl. unfold sorted_edges. rewrite elem_of_merge_sort, elem_of_elements.
  set_solver.
Qed.

Lemma sorted_str_ascending (X : gset string) :
  Sorted String.le (sorted_str (elements X)) ∧
  NoDup (sorted_str (elements X)).
Proof.
  split; [apply Sorted_merge_sort, _|].
  apply NoDup_merge_sort, NoDup_elements.
Qed.

Lemma sorted_edges_ascending (X : gset edge) :
  Sorted edge_le (sorted_edges (elements X)) ∧
  NoDup (sorted_edges (elements X)).
Proof.
  split; [apply Sorted_merge_sort, _|].
  apply NoDup_merge_sort, NoDup_elements.
Qed.

(** The commit of lines 416-417 happens whatever the release loop does. *)
Lemma update_ports_with_commit st hw pm E :
  known_ports (update_ports_with st hw pm E).1.1 = dict_keys pm ∧
  edges (update_ports_with st hw pm E).1.1 = E.
Proof.
  unfold update_ports_with.
  destruct (subscribe_new pm (_subscriptions st) hw) as [subs1 hw1].
  destruct (release pm _ subs1 hw1) as [[subs2 hw2] err]. done.
Qed.

Lemma update_ports_with_completed st hw pm E r sigs :
  (update_ports_with st hw pm E).2 = Completed r sigs →
  r = diff st pm E ∧ sigs = emit r.
Proof.
  unfold update_ports_with.
  destruct (subscribe_new pm (_subscriptions st) hw) as [subs1 hw1].
  destruct (release pm _ subs1 hw1) as [[subs2 hw2] [e|]]; simpl;
    intros ?; by simplify_eq.
Qed.

Lemma get_edges_dest_known pm e :
  e ∈ get_edges pm → e.2 ∈ dict_keys pm.
Proof.
  destruct e as [s d]. intros (cpt & Hin & _)%elem_of_get_edges. simpl.
  apply elem_of_dict_keys. eauto.
Qed.

(** C9.  Every edge that [get_edges] returns ends in a key of the port
    map it was computed from; the destinations are exactly the ports
    whose plugin has the [nd_array_port] attribute, and the source is the
    value of that attribute, which does not have to be a port: in the map
    with the single plugin [pluginA] reading "ghost", the edge
    ("ghost", "pluginA") is returned and "ghost" is not a key. *)
Theorem get_edges_dangle_only_at_source :
  (∀ pm s d,
     (s, d) ∈ get_edges pm ↔
     ∃ cpt, (d, cpt) ∈ pm ∧ nd_array_port cpt = Some s) ∧
  (∀ pm e, e ∈ get_edges pm → e.2 ∈ dict_keys pm) ∧
  (∀ pm d,
     (∃ s, (s, d) ∈ get_edges pm) ↔
     ∃ cpt, (d, cpt) ∈ pm ∧ is_Some (nd_array_port cpt)) ∧
  (let pm := [("pluginA", mkPlugin false (Some "ghost"))] in
   ("ghost", "pluginA") ∈ get_edges pm ∧ "ghost" ∉ dict_keys pm).
Proof.
  split_and!.
  - apply elem_of_get_edges.
  - apply get_edges_dest_known.
  - intros pm d. split.
    + intros (s & (cpt & ? & ?)%elem_of_get_edges). exists cpt. eauto.
    + intros (cpt & ? & [s Hs]). exists s. apply elem_of_get_edges. eauto.
  - simpl. split; [|by vm_compute; intros ?%list_elem_of_singleton].
    apply elem_of_get_edges. eexists. split; [left|done].
Qed.



(** C4.  Whatever the first refresh did, a second one that is handed the
    same port map and the same edges completes with four empty lists, so
    [has_changes] is false and it emits nothing: no single-change signal
    and no [update]. *)
Theorem update_ports_twice_no_changes st hw pm E :
  let st1 := (update_ports_with st hw pm E).1.1 in
  let hw1 := (update_ports_with st hw pm E).1.2 in
  (update_ports_with st1 hw1 pm E).2 = Completed (mkReport [] [] [] []) [] ∧
  has_changes (mkReport [] [] [] []) = false.
Proof.
  intros st1 hw1. split; [|done].
  destruct (update_ports_with_commit st hw pm E) as [Hk He].
  fold st1 in Hk, He. unfold update_ports_with at 1.
  destruct (subscribe_new pm (_subscriptions st1) hw1) as [subs1 hw1'].
  assert (diff st1 pm E = mkReport [] [] [] []) as ->.
  { unfold diff. rewrite Hk, He, !difference_diag_L.
    by rewrite !elements_empty. }
  done.
Qed.

(** The release loop cannot get past a removed port that has a
    subscription: such a port is by construction not a key of [port_map],
    and [port_map[port]] is evaluated to reach the plugin. *)
Lemma release_raises pm removed subs hw :
  (∀ p, p ∈ removed → p ∉ dict_keys pm) →
  (∃ p, p ∈ removed ∧ is_Some (subs !! p)) →
  (release pm removed subs hw).2 = Some KeyError.
Proof.
  revert subs hw. induction removed as [|q removed IH]; intros subs hw Hrm.
  - intros (p & []%elem_of_nil & _).
  - intros (p & Hp & Hsub). simpl.
    destruct (subs !! q) as [sub|] eqn:Hq.
    + assert (dict_get pm q = None) as ->; [|done].
      apply dict_get_None, Hrm. left.
    + apply IH; [intros ??; apply Hrm; by right|].
      exists p. apply elem_of_cons in Hp as [->|Hp]; [|done].
      rewrite Hq in Hsub. by destruct Hsub.
Qed.

Lemma subscribe_new_other pm subs hw (p : string) :
  p ∉ dict_keys pm → (subscribe_new pm subs hw).1 !! p = subs !! p.
Proof.
  unfold subscribe_new. intros Hp.
  assert (p ∉ dict_keys (merge_sort (λ a b : string * Plugin,
                                       String.le a.1 b.1) pm)) as Hp'.
  { unfold dict_keys in *. by rewrite merge_sort_Permutation. }
  revert Hp'. generalize (merge_sort (λ a b : string * Plugin,
                                        String.le a.1 b.1) pm).
  clear Hp. intros l. revert subs hw.
  induction l as [|[q cpt] l IH]; intros subs hw Hp; simpl; [done|].
  apply not_elem_of_cons in Hp as [Hne Hp].
  case_match; [|by apply IH].
  rewrite IH by done. simpl. by rewrite lookup_insert_ne.
Qed.

(** Removing a port that holds a subscription makes [update_ports] raise
    [KeyError], after the commit and before anything is emitted. *)
Lemma update_ports_removed_subscribed_raises st hw pm E (p : string) :
  p ∈ known_ports st → p ∉ dict_keys pm →
  is_Some (_subscriptions st !! p) →
  (update_ports_with st hw pm E).2 = Raised KeyError.
Proof.
  intros Hk Hpm Hsub. unfold update_ports_with.
  pose proof (subscribe_new_other pm (_subscriptions st) hw p Hpm) as Hs.
  destruct (subscribe_new pm (_subscriptions st) hw) as [subs1 hw1].
  pose proof (release_raises pm (ports_removed (diff st pm E)) subs1 hw1)
    as Hr.
  destruct (release pm _ subs1 hw1) as [[subs2 hw2] err]. simpl in Hr, Hs.
  rewrite Hr; [done| |].
  - intros q Hq. by apply (elem_of_ports_removed st pm E) in Hq as [_ ?].
  - exists p. split; [by apply (elem_of_ports_removed st pm E)|].
    by rewrite Hs.
Qed.

(** C2.  The scenario of the specification: the first refresh sees [camA]
    and [pluginA] and subscribes to [pluginA] with callback id 0; the
    second sees only [camA].  The second refresh raises [KeyError] instead
    of completing; the handle is gone from [_subscriptions], and the
    registration it stands for is still in force in the hardware layer. *)
Theorem update_ports_release_raises :
  let '(st1, hw1, out1) := update_ports init hw0 [camA; pluginA] in
  let '(st2, hw2, out2) := update_ports st1 hw1 [camA] in
  _subscriptions st1 !! "pluginA" = Some 0%nat ∧
  ("pluginA", 0%nat) ∈ live hw1 ∧
  ports_removed (diff st1 [camA] (get_edges [camA])) = ["pluginA"] ∧
  out2 = Raised KeyError ∧
  _subscriptions st2 !! "pluginA" = None ∧
  ("pluginA", 0%nat) ∈ live hw2.
Proof. vm_compute. split_and!; try done; by apply bool_decide_unpack. Qed.

(** C3, the claim as stated fails.  From the initial state, with the one
    plugin [pluginA] whose upstream reads "ghost", the refresh completes
    and both [edges_added] and the emitted signals carry the edge
    ("ghost", "pluginA"), although "ghost" is not a queried port. *)
Lemma dangling_edge_is_reported :
  let pm := [("pluginA", mkPlugin false (Some "ghost"))] in
  let r := mkReport [] ["pluginA"] [] [("ghost", "pluginA")] in
  (update_ports init hw0 pm).2
    = Completed r [port_added "pluginA"; edge_added "ghost" "pluginA";
                   update r] ∧
  "ghost" ∉ dict_keys pm ∧
  ¬ no_dangling_edge_reported.
Proof.
  intros pm r.
  assert ((update_ports init hw0 pm).2
          = Completed r [port_added "pluginA"; edge_added "ghost" "pluginA";
                         update r]) as Hout by (by vm_compute).
  assert ("ghost" ∉ dict_keys pm) as Hghost
    by (by vm_compute; intros ?%list_elem_of_singleton).
  split_and!; [done..|].
  intros Hclaim. apply Hghost.
  destruct (update_ports init hw0 pm) as [[st' hw'] out] eqn:Hup.
  simpl in Hout. subst out.
  assert (("ghost", "pluginA") ∈ edges_added r) as Hin by apply list_elem_of_here.
  exact (proj1 (Hclaim _ _ _ _ _ _ _ Hup _ Hin)).
Qed.

Lemma connect_added_acc (nodes : gset string) (l : list edge)
    (acc : gset edge * list edge) e :
  let res := foldl (λ (acc : gset edge * list edge) (e : edge),
                      if bool_decide (e.1 ∈ nodes) && bool_decide (e.2 ∈ nodes)
                      then (acc.1 ∪ {[ e ]}, acc.2)
                      else (acc.1, acc.2 ++ [e])) acc l in
  (e ∈ res.1 ↔ e ∈ acc.1 ∨ (e ∈ l ∧ e.1 ∈ nodes ∧ e.2 ∈ nodes)) ∧
  (e ∈ res.2 ↔ e ∈ acc.2 ∨ (e ∈ l ∧ ¬ (e.1 ∈ nodes ∧ e.2 ∈ nodes))).
Proof.
  revert acc. induction l as [|e' l IH]; intros [es sk]; simpl.
  - split; (split; [by left | intros [?|[[]%elem_of_nil _]]; done]).
  - destruct (IH (if bool_decide (e'.1 ∈ nodes) && bool_decide (e'.2 ∈ nodes)
                  then (es ∪ {[ e' ]}, sk) else (es, sk ++ [e'])))
      as [IH1 IH2].
    simpl in IH1, IH2. rewrite IH1, IH2. clear IH IH1 IH2.
    setoid_rewrite elem_of_cons.
    destruct (bool_decide (e'.1 ∈ nodes) && bool_decide (e'.2 ∈ nodes))
      eqn:Hb; simpl.
    + apply andb_prop in Hb as [?%bool_decide_eq_true ?%bool_decide_eq_true].
      rewrite elem_of_union, elem_of_singleton. naive_solver.
    + assert (¬ (e'.1 ∈ nodes ∧ e'.2 ∈ nodes)).
      { intros [??]. by rewrite !bool_decide_eq_true_2 in Hb. }
      rewrite elem_of_app, list_elem_of_singleton. naive_solver.
Qed.

Lemma emit_edges_added (r : report) e :
  e ∈ edges_added r → edge_added e.1 e.2 ∈ emit r.
Proof.
  intros He. unfold emit. rewrite !elem_of_app. do 3 right. left.
  by apply (list_elem_of_fmap_2 (λ e : edge, edge_added e.1 e.2)).
Qed.

(** C3, amended.  [update_ports] does not filter: [edges_added] is every
    queried edge that was not known before, each also emitted as an
    [edge_added] signal, and of such an edge only the destination is sure
    to be a queried port.  The dropping is done by the flowchart's handler:
    of the edges it is handed, those with both ends among its nodes enter
    [_edges], and each of the others is logged and skipped. *)
Theorem dangling_edges_dropped_by_handler st hw pm
    (nodes : gset string) (es : gset edge) :
  let r := diff st pm (get_edges pm) in
  let res := Flowchart.connect_added nodes (edges_added r) es in
  (∀ r' sigs, (update_ports st hw pm).2 = Completed r' sigs →
     r' = r ∧ ∀ e, e ∈ edges_added r → edge_added e.1 e.2 ∈ sigs) ∧
  (∀ e, e ∈ edges_added r ↔ e ∈ get_edges pm ∧ e ∉ edges st) ∧
  (∀ e, e ∈ edges_added r → e.2 ∈ dict_keys pm) ∧
  (∀ e, e ∈ res.1 ↔
        e ∈ es ∨ (e ∈ edges_added r ∧ e.1 ∈ nodes ∧ e.2 ∈ nodes)) ∧
  (∀ e, e ∈ res.2 ↔
        e ∈ edges_added r ∧ ¬ (e.1 ∈ nodes ∧ e.2 ∈ nodes)).
Proof.
  intros r res. split_and!.
  - intros r' sigs [-> ->]%update_ports_with_completed.
    split; [done|]. apply emit_edges_added.
  - apply elem_of_edges_added.
  - intros e [He _]%elem_of_edges_added.
    by apply get_edges_dest_known.
  - intros e.
    destruct (connect_added_acc nodes (edges_added r) (es, []) e) as [H _].
    apply H.
  - intros e.
    destruct (connect_added_acc nodes (edges_added r) (es, []) e) as [_ H].
    etrans; [exact H|]. cbn [snd]. rewrite elem_of_nil. naive_solver.
Qed.

End monitor_facts.

(** ** Loops *)

Section for_each_facts.
Context {A B : Type}.
Implicit Types (l : list B) (f g : B → A → option A) (a r : A).

Lemma for_each_ext l f g a :
  (∀ b a', b ∈ l → f b a' = g b a') → for_each l f a = for_each l g a.
Proof.
  revert a. induction l as [|b l IH]; intros a Hfg; simpl; [done|].
  rewrite (Hfg b a) by left. destruct (g b a) as [a'|]; simpl; [|done].
  apply IH. intros ???. apply Hfg. by right.
Qed.

(** A loop that does not return has a body that does not return. *)
Lemma for_each_None l f a :
  for_each l f a = None → ∃ b a', b ∈ l ∧ f b a' = None.
Proof.
  revert a. induction l as [|b l IH]; intros a; simpl; [done|].
  destruct (f b a) as [a'|] eqn:Hb; simpl.
  - intros (b' & a'' & ? & ?)%IH. exists b', a''. split; [by right|done].
  - intros _. exists b, a. split; [left|done].
Qed.

Lemma for_each_is_Some l f a :
  (∀ b a', b ∈ l → is_Some (f b a')) → is_Some (for_each l f a).
Proof.
  intros Hf. destruct (for_each l f a) eqn:Hl; [done|].
  apply for_each_None in Hl as (b & a' & Hb & Hn).
  destruct (Hf b a' Hb) as [? ?]. congruence.
Qed.

(** Bodies that return more often, and then the same, give such a loop. *)
Lemma for_each_mono l f g a r :
  (∀ b a' r', f b a' = Some r' → g b a' = Some r') →
  for_each l f a = Some r → for_each l g a = Some r.
Proof.
  intros Hfg. revert a. induction l as [|b l IH]; intros a; simpl; [done|].
  destruct (f b a) as [a'|] eqn:Hb; simpl; [|done].
  rewrite (Hfg _ _ _ Hb). simpl. apply IH.
Qed.

(** When every body moves the state up in a preorder, the loop does, and
    every element of the list had its body run between the start and the
    end. *)
Lemma for_each_run (R : relation A) `{!PreOrder R} l f a r :
  (∀ b a1 a2, f b a1 = Some a2 → R a1 a2) →
  for_each l f a = Some r →
  R a r ∧ ∀ b, b ∈ l → ∃ a1 a2, f b a1 = Some a2 ∧ R a a1 ∧ R a2 r.
Proof.
  intros Hf. revert a. induction l as [|b l IH]; intros a; simpl.
  - intros ?; simplify_eq. split; [done|]. by intros ? ?%elem_of_nil.
  - destruct (f b a) as [a'|] eqn:Hb; simpl; [|done].
    intros [Har Hl]%IH. pose proof (Hf _ _ _ Hb) as Haa'. split.
    + by etrans.
    + intros b' [->|Hb']%elem_of_cons.
      * exists a, a'. done.
      * destruct (Hl b' Hb') as (a1 & a2 & ? & ? & ?).
        exists a1, a2. split_and!; [done| by etrans |done].
Qed.
End for_each_facts.

(** ** The layout *)

Section layout_facts.
Import Layout.
Implicit Types (edges : list edge) (pm : list (string * Plugin)).
Implicit Types (xs ys x y : Z) (pos : positions) (fuel : nat).

Lemma elem_of_dests edges (p c : string) :
  c ∈ dests edges p ↔ child_of edges p c.
Proof.
  unfold dests, child_of. rewrite list_elem_of_fmap. split.
  - intros ([a b] & -> & [[Ha Hne] Hin]%list_elem_of_filter).
    simpl in *. by subst.
  - intros [Hin Hne]. exists (p, c). split; [done|].
    apply list_elem_of_filter. done.
Qed.

Lemma dests_perm edges1 edges2 (p : string) :
  edges1 ≡ₚ edges2 → dests edges1 p ≡ₚ dests edges2 p.
Proof. unfold dests. by intros ->. Qed.

Lemma child_calls_perm edges1 edges2 xs ys (p : string) x y :
  edges1 ≡ₚ edges2 →
  child_calls edges1 xs ys p x y = child_calls edges2 xs ys p x y.
Proof.
  intros Hp%(dests_perm _ _ p). unfold child_calls, sorted_str.
  by rewrite (merge_sort_perm _ _ _ Hp), (Permutation_length Hp).
Qed.

Lemma position_port_perm edges1 edges2 xs ys fuel (p : string) x y pos :
  edges1 ≡ₚ edges2 →
  position_port edges1 xs ys fuel p x y pos
  = position_port edges2 xs ys fuel p x y pos.
Proof.
  intros Hp. revert p x y pos.
  induction fuel as [|fuel IH]; intros p x y pos; simpl; [done|].
  rewrite (child_calls_perm _ _ _ _ _ _ _ Hp).
  apply for_each_ext. intros ???. apply IH.
Qed.

(** C7.  [position_nodes] is a function of its arguments, and it does not
    see the order in which the edges are enumerated: on two enumerations
    of the same edges, under the same bound on the nesting of calls, it
    returns the same dictionary, entry for entry and in the same order,
    or neither call returns. *)
Theorem position_nodes_edge_order edges1 edges2 pm xs ys fuel x y :
  edges1 ≡ₚ edges2 →
  position_nodes edges1 pm xs ys fuel x y
  = position_nodes edges2 pm xs ys fuel x y.
Proof.
  intros Hp. unfold position_nodes.
  assert (place_cameras edges1 pm xs ys fuel x y
          = place_cameras edges2 pm xs ys fuel x y) as ->.
  { apply for_each_ext. intros c [y' pos'] _.
    by rewrite (position_port_perm _ _ _ _ _ _ _ _ _ Hp). }
  destruct (place_cameras edges2 pm xs ys fuel x y) as [[y' pos']|];
    simpl; [|done].
  apply for_each_ext. intros c pos'' _.
  by rewrite (position_port_perm _ _ _ _ _ _ _ _ _ Hp).
Qed.

Lemma position_nodes_edge_order_witness :
  let e1 := [("camA", "pluginB"); ("pluginA", "pluginC"); ("camA", "pluginA")] in
  let e2 := [("camA", "pluginA"); ("camA", "pluginB"); ("pluginA", "pluginC")] in
  e1 ≡ₚ e2 ∧
  position_nodes e1 [camA] 150 60 4 0 0 = position_nodes e2 [camA] 150 60 4 0 0 ∧
  position_nodes e2 [camA] 150 60 4 0 0
  = Some [("camA", (0, 0)); ("pluginA", (150, -60)); ("pluginC", (300, -60));
          ("pluginB", (150, 0))].
Proof.
  intros e1 e2.
  assert (e1 ≡ₚ e2) as Hp.
  { exact (Permutation_app_comm [("camA", "pluginB"); ("pluginA", "pluginC")]
             [("camA", "pluginA")]). }
  split; [exact Hp|]. split; [|by vm_compute].
  exact (position_nodes_edge_order e1 e2 [camA] 150 60 4 0 0 Hp).
Defined.

(** *** Termination *)

Lemma chain_tc edges (p c : string) l :
  chain edges p l → c ∈ l → tc (child_of edges) p c.
Proof.
  revert p. induction l as [|d l IH]; intros p; simpl.
  - by intros _ ?%elem_of_nil.
  - intros [Hpd Hl] [->|Hc]%elem_of_cons; [by apply tc_once|].
    eapply tc_l; [done|]. by apply IH.
Qed.

Lemma chain_NoDup edges (p : string) l :
  acyclic edges → chain edges p l → NoDup l.
Proof.
  intros Hac. revert p. induction l as [|d l IH]; intros p; simpl.
  - intros _. constructor.
  - intros [_ Hl]. constructor; [|by eapply IH].
    intros Hd. apply (Hac d). by eapply chain_tc.
Qed.

Lemma chain_dest edges (p c : string) l :
  chain edges p l → c ∈ l → c ∈ edges.*2.
Proof.
  revert p. induction l as [|d l IH]; intros p; simpl.
  - by intros _ ?%elem_of_nil.
  - intros [[Hpd _] Hl] [->|Hc]%elem_of_cons; [|by eapply IH].
    by apply (list_elem_of_fmap_2 snd) in Hpd.
Qed.

(** A descent in an acyclic graph visits every port once, and every port
    it visits is the destination of an edge. *)
Lemma chain_length edges (p : string) l :
  acyclic edges → chain edges p l → (length l ≤ length edges)%nat.
Proof.
  intros Hac Hl.
  transitivity (length (edges.*2)); [|by rewrite length_fmap].
  apply submseteq_length.
  apply NoDup_submseteq; [by eapply chain_NoDup|].
  intros c. by eapply chain_dest.
Qed.

Lemma elem_of_child_calls edges xs ys (p : string) x y
    (call : string * (Z * Z)) :
  call ∈ child_calls edges xs ys p x y → child_of edges p call.1.
Proof.
  unfold child_calls.
  generalize (y - ys * (Z.of_nat (length (dests edges p)) `div` 2)).
  intros y0 ([i d] & -> & Hin)%list_elem_of_fmap. simpl.
  apply elem_of_dests, (elem_of_merge_sort String.le).
  fold (sorted_str (dests edges p)). revert Hin.
  generalize 0. induction (sorted_str (dests edges p)) as [|d' l IH];
    intros i0; simpl.
  - by intros ?%elem_of_nil.
  - intros [?|?]%elem_of_cons; simplify_eq; [left|right; eauto].
Qed.

(** A call that hits the bound went down a descent as long as the
    bound. *)
Lemma position_port_None edges xs ys fuel (p : string) x y pos :
  position_port edges xs ys fuel p x y pos = None →
  ∃ l, length l = fuel ∧ chain edges p l.
Proof.
  revert p x y pos. induction fuel as [|fuel IH]; intros p x y pos; simpl.
  - intros _. by exists [].
  - intros (call & pos' & Hcall & Hnone)%for_each_None.
    apply IH in Hnone as (l & <- & Hl).
    exists (call.1 :: l). split; [done|]. split; [|done].
    by eapply elem_of_child_calls.
Qed.

Lemma position_port_is_Some edges xs ys fuel (p : string) x y pos :
  acyclic edges → (length edges < fuel)%nat →
  is_Some (position_port edges xs ys fuel p x y pos).
Proof.
  intros Hac Hfuel.
  destruct (position_port edges xs ys fuel p x y pos) eqn:Hp; [done|].
  apply position_port_None in Hp as (l & <- & Hl).
  pose proof (chain_length _ _ _ Hac Hl). lia.
Qed.

(** More room for nesting does not change a result. *)
Lemma position_port_fuel_mono edges xs ys fuel fuel' (p : string) x y pos r :
  (fuel ≤ fuel')%nat →
  position_port edges xs ys fuel p x y pos = Some r →
  position_port edges xs ys fuel' p x y pos = Some r.
Proof.
  revert fuel' p x y pos r.
  induction fuel as [|fuel IH]; intros fuel' p x y pos r Hle; [done|].
  destruct fuel' as [|fuel']; [lia|]. simpl.
  apply for_each_mono. intros call pos' r'. apply IH. lia.
Qed.

Lemma position_nodes_fuel_mono edges pm xs ys fuel fuel' x y r :
  (fuel ≤ fuel')%nat →
  position_nodes edges pm xs ys fuel x y = Some r →
  position_nodes edges pm xs ys fuel' x y = Some r.
Proof.
  intros Hle. unfold position_nodes.
  destruct (place_cameras edges pm xs ys fuel x y) as [[y1 pos1]|] eqn:Hc;
    simpl; [|done].
  assert (place_cameras edges pm xs ys fuel' x y = Some (y1, pos1)) as ->.
  { revert Hc. apply for_each_mono. intros c [y2 pos2] [y3 pos3].
    destruct (position_port edges xs ys fuel c x y2 pos2) as [pos4|] eqn:Hp;
      simpl; [|done].
    by rewrite (position_port_fuel_mono _ _ _ _ _ _ _ _ _ _ Hle Hp). }
  simpl. apply for_each_mono. intros c pos2 pos3.
  case_bool_decide; [done|]. by apply position_port_fuel_mono.
Qed.

Lemma position_nodes_is_Some edges pm xs ys fuel x y :
  acyclic edges → (length edges < fuel)%nat →
  is_Some (position_nodes edges pm xs ys fuel x y).
Proof.
  intros Hac Hfuel. unfold position_nodes.
  destruct (for_each_is_Some (sorted_str (Monitor.cameras pm))
              (λ camera '(y, pos),
                 pos' ← position_port edges xs ys fuel camera x y pos;
                 Some (ys + max_y pos', pos')) (y, [])) as [[y1 pos1] Hc].
  { intros c [y2 pos2] _.
    destruct (position_port_is_Some edges xs ys fuel c x y2 pos2 Hac Hfuel)
      as [pos3 ->]. done. }
  unfold place_cameras. rewrite Hc. simpl.
  apply for_each_is_Some. intros c pos2 _.
  case_bool_decide; [done|]. by apply position_port_is_Some.
Qed.

(** Acyclicity from a rank that drops along every parent/child edge. *)
Lemma acyclic_rank edges (rank : string → nat) :
  (∀ a b, child_of edges a b → (rank b < rank a)%nat) → acyclic edges.
Proof.
  intros Hrank a Hcyc.
  assert (∀ b c, tc (child_of edges) b c → (rank c < rank b)%nat) as Htc.
  { intros b c Hbc. induction Hbc as [b c H|b c d H _ IH].
    - by apply Hrank.
    - apply Hrank in H. lia. }
  apply Htc in Hcyc. lia.
Qed.

(** C8.  On an edge list whose parent/child relation (the edges between
    two different ports) has no cycle, [position_nodes] returns: there is
    one dictionary that it returns under every bound on the nesting of
    calls above the number of edges.  A self-edge is not part of that
    relation: no port is among its own [dests], and no recursive call of
    [position_port] is for the port being placed. *)
Theorem position_nodes_total edges pm xs ys x y :
  acyclic edges →
  (∃ pos, ∀ fuel, (length edges < fuel)%nat →
            position_nodes edges pm xs ys fuel x y = Some pos) ∧
  (∀ p, p ∉ dests edges p) ∧
  (∀ p x' y' call, call ∈ child_calls edges xs ys p x' y' → call.1 ≠ p).
Proof.
  intros Hac. split_and!.
  - destruct (position_nodes_is_Some edges pm xs ys (S (length edges)) x y)
      as [pos Hpos]; [done|lia|].
    exists pos. intros fuel Hfuel.
    eapply position_nodes_fuel_mono; [|done]. lia.
  - intros p [_ Hne]%elem_of_dests. done.
  - intros p x' y' call [_ Hne]%elem_of_child_calls. done.
Qed.

Lemma position_nodes_total_witness :
  let edges := [("camA", "camA"); ("camA", "pluginA")] in
  acyclic edges ∧
  (∃ pos, ∀ fuel, (length edges < fuel)%nat →
            position_nodes edges [camA; pluginA] 150 60 fuel 0 0 = Some pos) ∧
  position_nodes edges [camA; pluginA] 150 60 3 0 0
  = Some [("camA", (0, 0)); ("pluginA", (150, 0))].
Proof.
  intros edges.
  assert (acyclic edges) as Hac.
  { apply (acyclic_rank _ (λ s, if decide (s = "camA") then 1 else 0)%nat).
    intros a b [Hin Hne]. unfold edges in Hin.
    rewrite !elem_of_cons, elem_of_nil in Hin.
    destruct Hin as [?|[?|[]]]; simplify_eq. vm_compute. lia. }
  split; [exact Hac|]. split; [|by vm_compute].
  exact (proj1 (position_nodes_total edges [camA; pluginA] 150 60 0 0 Hac)).
Defined.

(** *** The domain of the result *)

Global Instance keys_incl_preorder : PreOrder keys_incl.
Proof.
  split; [by intros pos k|].
  intros pos1 pos2 pos3 H12 H23 k Hk. by apply H23, H12.
Qed.

Global Instance cursor_incl_preorder : PreOrder cursor_incl.
Proof.
  split; [by intros [y pos] k|].
  intros [y1 pos1] [y2 pos2] [y3 pos3] H12 H23 k Hk. by apply H23, H12.
Qed.

Lemma child_calls_child edges xs ys (p c : string) x y :
  child_of edges p c →
  ∃ call, call ∈ child_calls edges xs ys p x y ∧ call.1 = c.
Proof.
  intros Hc%elem_of_dests%(elem_of_merge_sort String.le).
  unfold child_calls. fold (sorted_str (dests edges p)) in Hc |- *.
  generalize (y - ys * (Z.of_nat (length (dests edges p)) `div` 2)).
  intros y0. revert Hc. generalize 0.
  induction (sorted_str (dests edges p)) as [|d l IH]; intros i0; simpl.
  - by intros ?%elem_of_nil.
  - intros [->|Hc]%elem_of_cons.
    + eexists. split; [left|done].
    + destruct (IH (i0 + 1) Hc) as (call & ? & ?).
      exists call. split; [by right|done].
Qed.

Lemma position_port_keys edges xs ys fuel (p : string) x y pos r :
  position_port edges xs ys fuel p x y pos = Some r →
  keys_incl pos r ∧
  ∀ d, rtc (child_of edges) p d → d ∈ dict_keys r.
Proof.
  revert p x y pos r.
  induction fuel as [|fuel IH]; intros p x y pos r; simpl; [done|].
  intros Hrun.
  apply (for_each_run keys_incl) in Hrun as [Hset Hcalls];
    [|intros call a1 a2 Ha; by apply (IH _ _ _ _ _ Ha)].
  split.
  - intros k Hk. apply Hset, dict_keys_set. by right.
  - intros d Hd. apply rtc_inv in Hd as [->|(c & Hpc & Hcd)].
    + apply Hset, dict_keys_set. by left.
    + destruct (child_calls_child edges xs ys p c x y Hpc)
        as (call & Hcall & <-).
      destruct (Hcalls call Hcall) as (a1 & a2 & Ha & _ & Hr).
      apply Hr. by apply (IH _ _ _ _ _ Ha).
Qed.

(** So [max_y] is never asked for the maximum of nothing. *)
Lemma position_port_nonempty edges xs ys fuel (p : string) x y pos r :
  position_port edges xs ys fuel p x y pos = Some r → r ≠ [].
Proof.
  intros [_ Hp]%position_port_keys ->.
  specialize (Hp p (rtc_refl _ _)). by apply elem_of_nil in Hp.
Qed.

(** C10.  When [position_nodes] returns, every key of the port map has a
    position, and so has the destination of every edge whose source is a
    camera of the port map or a descendant of one, whether or not that
    destination is a key of the port map: with the one camera [camA] and
    the one edge from it to "ghost", the result has a position for
    "ghost", which is not a key. *)
Theorem position_nodes_domain edges pm xs ys fuel x y pos :
  position_nodes edges pm xs ys fuel x y = Some pos →
  (∀ p, p ∈ dict_keys pm → p ∈ dict_keys pos) ∧
  (∀ cam s d, cam ∈ Monitor.cameras pm → rtc (child_of edges) cam s →
              (s, d) ∈ edges → d ∈ dict_keys pos) ∧
  (position_nodes [("camA", "ghost")] [camA] 150 60 2 0 0
   = Some [("camA", (0, 0)); ("ghost", (150, 0))] ∧
   "ghost" ∉ dict_keys [camA]).
Proof.
  unfold position_nodes, place_cameras, place_rest.
  destruct (for_each (sorted_str (Monitor.cameras pm)) _ (y, []))
    as [[y1 pos1]|] eqn:Hcams; simpl; [|done].
  intros Hrest.
  apply (for_each_run cursor_incl) in Hcams as [_ Hcams].
  2:{ intros c [y2 pos2] [y3 pos3]. unfold cursor_incl. simpl.
      destruct (position_port edges xs ys fuel c x y2 pos2) as [pos4|] eqn:Hp;
        simpl; [|done].
      intros ?; simplify_eq. by apply position_port_keys in Hp as [? _]. }
  apply (for_each_run keys_incl) in Hrest as [Hincl Hrest].
  2:{ intros c pos2 pos3. case_bool_decide; [by intros ?; simplify_eq|].
      by intros [? _]%position_port_keys. }
  split_and!.
  - intros p Hp. destruct (Hrest p Hp) as (a1 & a2 & Ha & _ & Hr).
    apply Hr. case_bool_decide; simplify_eq; [done|].
    apply position_port_keys in Ha as [_ Ha]. apply Ha, rtc_refl.
  - intros cam s d Hcam Hs Hsd. apply Hincl.
    assert (rtc (child_of edges) cam d) as Hd.
    { destruct (decide (s = d)) as [<-|Hne]; [done|].
      eapply rtc_r; [done|]. by split. }
    apply (elem_of_merge_sort String.le) in Hcam.
    destruct (Hcams cam Hcam) as ([y2 pos2] & [y3 pos3] & Ha & _ & Hr).
    simpl in *. apply Hr.
    destruct (position_port edges xs ys fuel cam x y2 pos2) as [pos4|] eqn:Hp;
      simpl in Ha; [|done].
    simplify_eq. apply position_port_keys in Hp as [_ Hp]. by apply Hp.
  - by vm_compute.
  - vm_compute. by intros ?%list_elem_of_singleton.
Qed.

Lemma position_nodes_domain_witness :
  let edges := [("camA", "pluginA"); ("pluginA", "ghost")] in
  let pos := [("camA", (0, 0)); ("pluginA", (150, 0)); ("ghost", (300, 0));
              ("pluginB", (0, 60))] in
  let pm := [camA; pluginA; ("pluginB", mkPlugin false None)] in
  position_nodes edges pm 150 60 3 0 0 = Some pos ∧
  (∀ p, p ∈ dict_keys pm → p ∈ dict_keys pos) ∧
  "ghost" ∈ dict_keys pos.
Proof.
  intros edges pos pm.
  assert (position_nodes edges pm 150 60 3 0 0 = Some pos) as Hpos
    by (by vm_compute).
  pose proof (position_nodes_domain edges pm 150 60 3 0 0 pos Hpos)
    as (Hkeys & Hreach & _).
  split; [exact Hpos|]. split; [exact Hkeys|].
  apply (Hreach "camA" "pluginA" "ghost").
  - vm_compute. left.
  - apply rtc_once. split; [left|done].
  - right. left.
Defined.

(** *** Vertical separation *)

Lemma enumerate_from_lookup (l : list string) (i0 : Z) (i : nat)
    (c : Z * string) :
  enumerate_from i0 l !! i = Some c → c.1 = i0 + Z.of_nat i.
Proof.
  revert i0 i. induction l as [|d l IH]; intros i0 [|i]; simpl; try done.
  - intros ?; simplify_eq. simpl. lia.
  - intros ->%IH. lia.
Qed.

Lemma child_calls_lookup edges xs ys (p : string) x y (i : nat)
    (call : string * (Z * Z)) :
  child_calls edges xs ys p x y !! i = Some call →
  call.2 = (x + xs,
            y - ys * (Z.of_nat (length (dests edges p)) `div` 2)
              + Z.of_nat i * ys).
Proof.
  unfold child_calls. rewrite list_lookup_fmap.
  destruct (enumerate_from 0 (sorted_str (dests edges p)) !! i)
    as [[idx d]|] eqn:Hi; simpl; [|done].
  apply enumerate_from_lookup in Hi. simpl in Hi.
  intros ?; simplify_eq. simpl. repeat f_equal; lia.
Qed.




(** C6.  Two plugins and no edge: both are placed at (0, 0).  After a
    camera: the camera at (0, 0) and both plugins at (0, 60).  The cursor
    [y] is moved once, before the loop over the unplaced ports, and not
    again between two of them, unlike in the loop over the cameras, where
    the second camera goes to (0, 60). *)
Theorem unplaced_ports_share_y :
  let p1 := ("p1", mkPlugin false None) in
  let p2 := ("p2", mkPlugin false None) in
  let camB := ("camB", mkPlugin true None) in
  position_nodes [] [p1; p2] 150 60 1 0 0
  = Some [("p1", (0, 0)); ("p2", (0, 0))] ∧
  position_nodes [] [camA; p1; p2] 150 60 1 0 0
  = Some [("camA", (0, 0)); ("p1", (0, 60)); ("p2", (0, 60))] ∧
  position_nodes [] [camA; camB] 150 60 1 0 0
  = Some [("camA", (0, 0)); ("camB", (0, 60))].
Proof. by vm_compute. Qed.

End layout_facts.

(** * Further properties of the monitor *)

Section monitor_more.
Import Monitor.
Implicit Types (st : state) (hw : hardware) (pm : list (string * Plugin)).
Implicit Types (E : gset edge) (subs : gmap string nat).

Lemma dict_value_unique {V} (d : list (string * V)) (k : string) (v1 v2 : V) :
  NoDup (dict_keys d) → (k, v1) ∈ d → (k, v2) ∈ d → v1 = v2.
Proof.
  unfold dict_keys. induction d as [|[k' v'] d IH]; simpl.
  - by intros _ ?%elem_of_nil.
  - intros [Hk Hd]%NoDup_cons [?|H1]%elem_of_cons [?|H2]%elem_of_cons;
      simplify_eq; try done.
    + destruct Hk. by apply (list_elem_of_fmap_2 fst) in H2.
    + destruct Hk. by apply (list_elem_of_fmap_2 fst) in H1.
    + by apply IH.
Qed.

(** A port has one upstream: in the edges read off a dictionary (keys
    unique), no two edges end in the same port. *)
Theorem get_edges_one_upstream pm (s1 s2 d : string) :
  NoDup (dict_keys pm) →
  (s1, d) ∈ get_edges pm → (s2, d) ∈ get_edges pm → s1 = s2.
Proof.
  intros Hnd (c1 & Hin1 & Hs1)%elem_of_get_edges
             (c2 & Hin2 & Hs2)%elem_of_get_edges.
  assert (c1 = c2) as -> by (by eapply dict_value_unique).
  congruence.
Qed.

Lemma get_edges_one_upstream_witness :
  NoDup (dict_keys [camA; pluginA]) ∧
  ("camA", "pluginA") ∈ get_edges [camA; pluginA] ∧
  ∀ s, (s, "pluginA") ∈ get_edges [camA; pluginA] → s = "camA".
Proof.
  assert (NoDup (dict_keys [camA; pluginA])) as Hnd.
  { vm_compute. repeat constructor;
      rewrite ?elem_of_cons, ?elem_of_nil; naive_solver. }
  assert (("camA", "pluginA") ∈ get_edges [camA; pluginA]) as Hin.
  { apply elem_of_get_edges. eexists. split; [right; left|done]. }
  split; [exact Hnd|]. split; [exact Hin|].
  intros s Hs.
  exact (get_edges_one_upstream [camA; pluginA] s "camA" "pluginA" Hnd Hs Hin).
Defined.

(** *** The subscribe loop *)

Lemma subscribe_new_items pm subs hw :
  subscribe_new pm subs hw
  = subscribe_items
      (merge_sort (λ a b : string * Plugin, String.le a.1 b.1) pm) subs hw.
Proof. done. Qed.

Lemma subscribe_items_cons (item : string * Plugin) items subs hw :
  subscribe_items (item :: items) subs hw
  = if bool_decide (subs !! item.1 = None) &&
       bool_decide (is_Some (nd_array_port item.2))
    then subscribe_items items (<[ item.1 := next_cid hw ]> subs)
           (subscribe item.1 hw).2
    else subscribe_items items subs hw.
Proof. unfold subscribe_items. simpl. by case_match. Qed.

(** A handle that is there is kept. *)
Lemma subscribe_items_keeps items subs hw (p : string) (c : nat) :
  subs !! p = Some c → (subscribe_items items subs hw).1 !! p = Some c.
Proof.
  revert subs hw. induction items as [|item items IH]; intros subs hw Hp;
    [done|].
  rewrite subscribe_items_cons. case_match eqn:Hb; [|by apply IH].
  apply andb_prop in Hb as [Hnone%bool_decide_eq_true _].
  apply IH. rewrite lookup_insert_ne; [done|]. congruence.
Qed.

(** Every item whose plugin has the attribute ends up with a handle. *)
Lemma subscribe_items_covers items subs hw (p : string) (cpt : Plugin) :
  (p, cpt) ∈ items → is_Some (nd_array_port cpt) →
  is_Some ((subscribe_items items subs hw).1 !! p).
Proof.
  revert subs hw. induction items as [|item items IH]; intros subs hw.
  - by intros ?%elem_of_nil.
  - intros [<-|Hin]%elem_of_cons Hattr; rewrite subscribe_items_cons.
    + cbn [fst snd]. case_match eqn:Hb.
      * erewrite subscribe_items_keeps; [done|]. apply lookup_insert_eq.
      * apply andb_false_iff in Hb as [Hb%bool_decide_eq_false
                                      |Hb%bool_decide_eq_false]; [|done].
        destruct (subs !! p) as [c|] eqn:Hp; [|done].
        by erewrite subscribe_items_keeps.
    + case_match; by apply IH.
Qed.

(** Where every such item has a handle already, nothing is done. *)
Lemma subscribe_items_noop items subs hw :
  (∀ p cpt, (p, cpt) ∈ items → is_Some (nd_array_port cpt) →
            is_Some (subs !! p)) →
  subscribe_items items subs hw = (subs, hw).
Proof.
  induction items as [|[p cpt] items IH]; intros Hall; [done|].
  rewrite subscribe_items_cons. simpl.
  assert (bool_decide (subs !! p = None)
          && bool_decide (is_Some (nd_array_port cpt)) = false) as ->.
  { destruct (nd_array_port cpt) as [v|] eqn:Hattr.
    - destruct (Hall p cpt) as [c Hc]; [left|by rewrite Hattr|].
      rewrite bool_decide_eq_false_2; [done|]. by rewrite Hc.
    - rewrite andb_comm. rewrite bool_decide_eq_false_2; [done|].
      by intros [? ?]. }
  apply IH. intros q c Hin. apply Hall. by right.
Qed.

Lemma subscribe_items_in_step items subs hw :
  in_step subs hw →
  in_step (subscribe_items items subs hw).1 (subscribe_items items subs hw).2.
Proof.
  revert subs hw. induction items as [|item items IH]; intros subs hw Hstep;
    [done|].
  rewrite subscribe_items_cons. case_match eqn:Hb; [|by apply IH].
  apply andb_prop in Hb as [Hnone%bool_decide_eq_true _].
  apply IH. intros q c. simpl. rewrite elem_of_union, elem_of_singleton.
  destruct (decide (q = item.1)) as [->|Hne].
  - rewrite lookup_insert_eq. split.
    + intros [?|Hl]; [by simplify_eq|].
      apply Hstep in Hl. congruence.
    + intros ?; simplify_eq. by left.
  - rewrite lookup_insert_ne by done. split.
    + intros [?|Hl]; [by simplify_eq|by apply Hstep].
    + intros ?%Hstep. by right.
Qed.

Lemma subscribe_items_handles_live items subs hw :
  handles_live subs hw →
  handles_live (subscribe_items items subs hw).1
               (subscribe_items items subs hw).2.
Proof.
  revert subs hw. induction items as [|item items IH]; intros subs hw Hlive;
    [done|].
  rewrite subscribe_items_cons. case_match eqn:Hb; [|by apply IH].
  apply IH. intros q c. simpl. rewrite elem_of_union, elem_of_singleton.
  destruct (decide (q = item.1)) as [->|Hne].
  - rewrite lookup_insert_eq. intros ?; simplify_eq. by left.
  - rewrite lookup_insert_ne by done. intros ?%Hlive. by right.
Qed.

(** *** The release loop *)

(** With no removed port in [port_map], the loop either pops nothing or
    ends in [KeyError]. *)
Lemma release_None pm removed subs hw :
  (∀ p, p ∈ removed → p ∉ dict_keys pm) →
  (release pm removed subs hw).2 = None →
  release pm removed subs hw = (subs, hw, None).
Proof.
  revert subs hw. induction removed as [|q removed IH]; intros subs hw Hrm;
    simpl; [done|].
  destruct (subs !! q) as [sub|] eqn:Hq.
  - assert (dict_get pm q = None) as ->; [|done].
    apply dict_get_None, Hrm. left.
  - apply IH. intros ??. apply Hrm. by right.
Qed.

Lemma release_error pm removed subs hw (e : exn) :
  (∀ p, p ∈ removed → p ∉ dict_keys pm) →
  (release pm removed subs hw).2 = Some e →
  e = KeyError ∧ ∃ p, p ∈ removed ∧ is_Some (subs !! p).
Proof.
  revert subs hw. induction removed as [|q removed IH]; intros subs hw Hrm;
    simpl; [done|].
  destruct (subs !! q) as [sub|] eqn:Hq.
  - assert (dict_get pm q = None) as ->.
    { apply dict_get_None, Hrm. left. }
    simpl. intros ?; simplify_eq. split; [done|].
    exists q. split; [left|by rewrite Hq].
  - intros [-> (p & Hp & Hsub)]%IH; [|intros ??; apply Hrm; by right].
    split; [done|]. exists p. split; [by right|done].
Qed.

(** The loop leaves the handles of the other ports alone. *)
Lemma release_other pm removed subs hw (p : string) :
  p ∉ removed → (release pm removed subs hw).1.1 !! p = subs !! p.
Proof.
  revert subs hw. induction removed as [|q removed IH]; intros subs hw;
    simpl; [done|].
  intros [Hne Hp]%not_elem_of_cons.
  destruct (subs !! q) as [sub|] eqn:Hq; [|by apply IH].
  destruct (dict_get pm q) as [cpt|]; simpl; [|by apply lookup_delete_ne].
  destruct (nd_array_port cpt); simpl; [|by apply lookup_delete_ne].
  rewrite IH by done. by apply lookup_delete_ne.
Qed.

Lemma release_handles_live pm removed subs hw :
  handles_live subs hw →
  handles_live (release pm removed subs hw).1.1 (release pm removed subs hw).1.2.
Proof.
  revert subs hw. induction removed as [|q removed IH]; intros subs hw Hlive;
    simpl; [done|].
  assert (handles_live (delete q subs) hw) as Hdel.
  { intros p c [_ Hp]%lookup_delete_Some. by apply Hlive. }
  destruct (subs !! q) as [sub|] eqn:Hq; [|by apply IH].
  destruct (dict_get pm q) as [cpt|]; simpl; [|done].
  destruct (nd_array_port cpt); simpl; [|done].
  apply IH. intros p c [Hne Hp]%lookup_delete_Some. simpl.
  apply elem_of_difference. split; [by apply Hlive|].
  intros ?%elem_of_singleton. by simplify_eq.
Qed.

(** *** update_ports *)

(** The pieces of [update_ports_with], named. *)
Lemma update_ports_with_unfold st hw pm E :
  let sn := subscribe_new pm (_subscriptions st) hw in
  let rl := release pm (ports_removed (diff st pm E)) sn.1 sn.2 in
  update_ports_with st hw pm E
  = ({| known_ports := dict_keys pm; edges := E;
        _subscriptions := rl.1.1 |},
     rl.1.2,
     match rl.2 with
     | Some e => Raised e
     | None => Completed (diff st pm E) (emit (diff st pm E))
     end).
Proof.
  intros sn rl. unfold update_ports_with. subst rl sn.
  destruct (subscribe_new pm (_subscriptions st) hw) as [subs1 hw1].
  cbn [fst snd].
  by destruct (release pm (ports_removed (diff st pm E)) subs1 hw1)
    as [[subs2 hw2] err].
Qed.

Lemma ports_removed_not_key st pm E (p : string) :
  p ∈ ports_removed (diff st pm E) → p ∉ dict_keys pm.
Proof. by intros [_ ?]%elem_of_ports_removed. Qed.

(** Once its two queries have returned, and with a [subscribe] that
    returns, [update_ports] raises in one case only: a port that was known
    and is not in the port map any more holds a subscription.  The
    exception is then the [KeyError] of [port_map[port]] in the release
    loop.  (What the detector or the hardware layer may raise inside the
    queries and inside [subscribe] is outside this statement.) *)
Theorem update_ports_raises_iff st hw pm E (e : exn) :
  (update_ports_with st hw pm E).2 = Raised e ↔
  e = KeyError ∧
  ∃ p, p ∈ known_ports st ∧ p ∉ dict_keys pm ∧
       is_Some (_subscriptions st !! p).
Proof.
  split.
  - rewrite update_ports_with_unfold. cbn [snd].
    destruct (release pm _ _ _).2 as [e'|] eqn:Hr; [|done].
    intros ?; simplify_eq.
    apply release_error in Hr as [-> (p & Hp & Hsub)];
      [|apply ports_removed_not_key].
    split; [done|]. exists p.
    apply elem_of_ports_removed in Hp as [Hk Hpm]. split_and!; [done..|].
    by rewrite <-(subscribe_new_other pm _ hw p Hpm).
  - intros [-> (p & Hk & Hpm & Hsub)].
    by eapply update_ports_removed_subscribed_raises.
Qed.

(** After [update_ports], however it ends, every port of the port map whose
    plugin has the [nd_array_port] attribute has a handle in
    [_subscriptions]. *)
Theorem update_ports_subscribes_all st hw pm E (p : string) (cpt : Plugin) :
  (p, cpt) ∈ pm → is_Some (nd_array_port cpt) →
  is_Some (_subscriptions (update_ports_with st hw pm E).1.1 !! p).
Proof.
  intros Hin Hattr. rewrite update_ports_with_unfold. cbn [fst snd].
  cbn [_subscriptions]. rewrite release_other.
  - rewrite subscribe_new_items. eapply subscribe_items_covers; [|done].
    by rewrite merge_sort_Permutation.
  - intros Hrm%ports_removed_not_key. apply Hrm, elem_of_dict_keys. eauto.
Qed.

Lemma update_ports_subscribes_all_witness :
  pluginA ∈ [camA; pluginA] ∧
  is_Some (nd_array_port pluginA.2) ∧
  is_Some (_subscriptions (update_ports_with init hw0 [camA; pluginA] ∅).1.1
             !! "pluginA").
Proof.
  assert (pluginA ∈ [camA; pluginA]) as Hin by (right; left).
  assert (is_Some (nd_array_port pluginA.2)) as Hattr by (by exists "camA").
  split; [exact Hin|]. split; [exact Hattr|].
  exact (update_ports_subscribes_all init hw0 [camA; pluginA] ∅
           "pluginA" pluginA.2 Hin Hattr).
Defined.

(** The handles and the hardware stay in step.  When the registrations in
    force are exactly the handles held, then after [update_ports] every
    handle held is still a registration in force; when it completes, the
    registrations in force are again exactly the handles held, so no port
    has two. *)
Theorem update_ports_in_step st hw pm E :
  in_step (_subscriptions st) hw →
  let st' := (update_ports_with st hw pm E).1.1 in
  let hw' := (update_ports_with st hw pm E).1.2 in
  handles_live (_subscriptions st') hw' ∧
  (∀ r sigs, (update_ports_with st hw pm E).2 = Completed r sigs →
     in_step (_subscriptions st') hw' ∧
     ∀ p c1 c2, (p, c1) ∈ live hw' → (p, c2) ∈ live hw' → c1 = c2).
Proof.
  intros Hstep st' hw'. subst st' hw'.
  rewrite update_ports_with_unfold. cbn [fst snd _subscriptions].
  pose proof (subscribe_items_in_step
                (merge_sort (λ a b : string * Plugin, String.le a.1 b.1) pm)
                _ _ Hstep) as Hstep1.
  rewrite <-subscribe_new_items in Hstep1. split.
  - apply release_handles_live. intros p c Hp. by apply Hstep1.
  - intros r sigs Hout.
    destruct (release pm _ _ _).2 as [e'|] eqn:Hr; [done|].
    apply release_None in Hr; [|apply ports_removed_not_key].
    rewrite Hr. cbn [fst snd]. split; [done|].
    intros p c1 c2 H1%Hstep1 H2%Hstep1. congruence.
Qed.

Lemma update_ports_in_step_witness :
  in_step (_subscriptions init) hw0 ∧
  handles_live
    (_subscriptions (update_ports_with init hw0 [camA; pluginA] ∅).1.1)
    (update_ports_with init hw0 [camA; pluginA] ∅).1.2.
Proof.
  assert (in_step (_subscriptions init) hw0) as Hstep.
  { intros p c. simpl. rewrite lookup_empty. split; [|done].
    by intros ?%not_elem_of_empty. }
  split; [exact Hstep|].
  exact (proj1 (update_ports_in_step init hw0 [camA; pluginA] ∅ Hstep)).
Defined.

(** A second [update_ports] on the same port map and edges changes nothing:
    the monitor's state and the hardware layer are as the first left them
    (no port is subscribed a second time), and nothing is emitted. *)
Theorem update_ports_twice_same_state st hw pm E :
  let st1 := (update_ports_with st hw pm E).1.1 in
  let hw1 := (update_ports_with st hw pm E).1.2 in
  update_ports_with st1 hw1 pm E
  = (st1, hw1, Completed (mkReport [] [] [] []) []).
Proof.
  intros st1 hw1.
  pose proof (update_ports_subscribes_all st hw pm E) as Hall.
  destruct (update_ports_with_commit st hw pm E) as [Hk He].
  fold st1 in Hall, Hk, He.
  rewrite (update_ports_with_unfold st1 hw1).
  assert (diff st1 pm E = mkReport [] [] [] []) as ->.
  { unfold diff. rewrite Hk, He, !difference_diag_L.
    by rewrite !elements_empty. }
  rewrite subscribe_new_items, subscribe_items_noop.
  - cbn. destruct st1 as [k1 e1 s1]. simpl in *. by subst.
  - intros p cpt Hin. apply Hall. revert Hin. by rewrite merge_sort_Permutation.
Qed.

End monitor_more.

(** * The cached port map *)

Section cached_facts.
Import Monitor Cached.
Implicit Types (m : monitor) (hw : hardware) (det : list (string * Plugin)).
Implicit Types (now : reading).

Lemma dict_keys_observe now (objs : list (string * Plugin)) :
  dict_keys (observe now objs) = dict_keys objs.
Proof.
  unfold dict_keys, observe. rewrite <-list_fmap_compose.
  by apply list_fmap_ext.
Qed.

(** What one call does, with the two readings of the property resolved:
    the port map is the cache, or the detector's dictionary when the cache
    is empty, both times. *)
Lemma update_ports_unfold now det m hw :
  let objs := if bool_decide (_port_map m = []) then det else _port_map m in
  let pm := observe now objs in
  update_ports now det m hw
  = ({| attrs := (update_ports_with (attrs m) hw pm (get_edges pm)).1.1;
        _port_map := objs |},
     (update_ports_with (attrs m) hw pm (get_edges pm)).1.2,
     (update_ports_with (attrs m) hw pm (get_edges pm)).2).
Proof.
  intros objs pm. subst pm objs. unfold update_ports, port_map.
  destruct m as [st cache]. cbn [Cached._port_map Cached.attrs].
  destruct (bool_decide (cache = [])) eqn:Hc;
    cbn [update_port_map Cached._port_map Cached.attrs].
  - destruct (bool_decide (det = [])) eqn:Hd;
      cbn [update_port_map Cached._port_map Cached.attrs];
      by destruct (update_ports_with st hw _ _) as [[st' hw'] out].
  - rewrite Hc. cbn [Cached._port_map Cached.attrs].
    by destruct (update_ports_with st hw _ _) as [[st' hw'] out].
Qed.

(** The names the monitor knows are the keys of its cache. *)
Lemma reachable_known_ports m hw :
  reachable m hw → known_ports (attrs m) = dict_keys (_port_map m).
Proof.
  induction 1 as [hw|now det m hw _ IH]; [done|].
  rewrite update_ports_unfold. cbn [fst snd Cached.attrs Cached._port_map].
  destruct (update_ports_with_commit (attrs m) hw
              (observe now (if bool_decide (_port_map m = []) then det
                            else _port_map m))
              (get_edges (observe now (if bool_decide (_port_map m = [])
                                       then det else _port_map m))))
    as [-> _].
  apply dict_keys_observe.
Qed.



End cached_facts.

(** * Further properties of the layout *)

Section layout_more.
Import Layout.
Implicit Types (edges : list edge) (pm : list (string * Plugin)).
Implicit Types (xs ys x y : Z) (pos : positions) (fuel : nat).

(** A property of the state that every body keeps is kept by the loop. *)
Lemma for_each_inv {A B} (P : A → Prop) (l : list B)
    (f : B → A → option A) (a r : A) :
  P a →
  (∀ b a1 a2, b ∈ l → P a1 → f b a1 = Some a2 → P a2) →
  for_each l f a = Some r → P r.
Proof.
  revert a. induction l as [|b l IH]; intros a Ha Hf; simpl.
  - by intros ?; simplify_eq.
  - destruct (f b a) as [a'|] eqn:Hb; simpl; [|done].
    apply IH.
    + eapply Hf; [left|done..].
    + intros b' a1 a2 ?. apply Hf. by right.
Qed.

Lemma dict_get_is_Some {V} (d : list (string * V)) (k : string) :
  k ∈ dict_keys d ↔ is_Some (dict_get d k).
Proof.
  destruct (dict_get d k) as [v|] eqn:Hk.
  - split; [done|]. intros _.
    apply dict_get_Some in Hk. apply elem_of_dict_keys. eauto.
  - apply dict_get_None in Hk. split; [done|]. by intros [? ?].
Qed.

Lemma dict_set_NoDup {V} (d : list (string * V)) (k : string) (v : V) :
  NoDup (dict_keys d) → NoDup (dict_keys (dict_set k v d)).
Proof.
  unfold dict_keys. induction d as [|[k' v'] d IH]; simpl.
  - intros _. apply NoDup_singleton.
  - intros [Hk Hd]%NoDup_cons. case_decide; simpl.
    + by apply NoDup_cons.
    + apply NoDup_cons. split; [|by apply IH].
      intros [?|?]%(dict_keys_set d k v k'); done.
Qed.

Lemma cameras_keys pm (c : string) : c ∈ Monitor.cameras pm → c ∈ dict_keys pm.
Proof.
  unfold Monitor.cameras, dict_keys. rewrite !list_elem_of_fmap.
  intros (item & -> & [_ Hin]%list_elem_of_filter). eauto.
Qed.

Lemma child_calls_column edges xs ys (p : string) x y
    (call : string * (Z * Z)) :
  call ∈ child_calls edges xs ys p x y → call.2.1 = x + xs.
Proof.
  intros [i Hi]%list_elem_of_lookup.
  by rewrite (child_calls_lookup _ _ _ _ _ _ _ _ Hi).
Qed.

(** *** What is placed, and where from *)

(** A call places the port and descendants of it, nothing else, and does
    not touch what is there for other ports. *)
Lemma position_port_frame edges xs ys fuel (p : string) x y pos r :
  position_port edges xs ys fuel p x y pos = Some r →
  ∀ k, ¬ rtc (child_of edges) p k → dict_get r k = dict_get pos k.
Proof.
  revert p x y pos r.
  induction fuel as [|fuel IH]; intros p x y pos r; simpl; [done|].
  intros Hrun k Hk.
  apply (for_each_inv (λ a, dict_get a k = dict_get pos k)) in Hrun; [done|..].
  - rewrite dict_get_set. case_decide; [|done].
    subst. destruct Hk. done.
  - intros call a1 a2 Hcall Ha1 Hstep. rewrite <-Ha1.
    apply (IH _ _ _ _ _ Hstep). intros Hck. apply Hk.
    eapply rtc_l; [|done]. by eapply elem_of_child_calls.
Qed.

Lemma position_port_NoDup edges xs ys fuel (p : string) x y pos r :
  position_port edges xs ys fuel p x y pos = Some r →
  NoDup (dict_keys pos) → NoDup (dict_keys r).
Proof.
  revert p x y pos r.
  induction fuel as [|fuel IH]; intros p x y pos r; simpl; [done|].
  intros Hrun Hnd.
  apply (for_each_inv (λ a, NoDup (dict_keys a))) in Hrun; [done|..].
  - by apply dict_set_NoDup.
  - intros call a1 a2 _ Ha1 Hstep. by eapply IH.
Qed.

Lemma chain_snoc edges (root p c : string) l :
  chain edges root l → last (root :: l) = Some p → child_of edges p c →
  chain edges root (l ++ [c]).
Proof.
  revert root. induction l as [|d l IH]; intros root Hch Hlast Hc.
  - simpl in *. by simplify_eq.
  - destruct Hch as [Hd Hl]. split; [done|]. apply IH; [done| |done].
    exact Hlast.
Qed.

Lemma at_depth_child edges pm x0 xs (p c : string) x :
  at_depth edges pm x0 xs p x → child_of edges p c →
  at_depth edges pm x0 xs c (x + xs).
Proof.
  intros (root & l & Hroot & Hl & Hlast & ->) Hc.
  exists root, (l ++ [c]). split_and!; [done| | |].
  - by eapply chain_snoc.
  - by rewrite app_comm_cons, last_snoc.
  - rewrite length_app. simpl. lia.
Qed.

Lemma at_depth_root edges pm x0 xs (p : string) :
  p ∈ dict_keys pm → at_depth edges pm x0 xs p x0.
Proof. intros Hp. exists p, []. split_and!; [done..|]. simpl. lia. Qed.

Lemma position_port_depth edges pm x0 xs ys fuel (p : string) x y pos r :
  position_port edges xs ys fuel p x y pos = Some r →
  at_depth edges pm x0 xs p x →
  (∀ k x' y', dict_get pos k = Some (x', y') → at_depth edges pm x0 xs k x') →
  ∀ k x' y', dict_get r k = Some (x', y') → at_depth edges pm x0 xs k x'.
Proof.
  revert p x y pos r.
  induction fuel as [|fuel IH]; intros p x y pos r; simpl; [done|].
  intros Hrun Hp Hpos.
  eapply (for_each_inv
            (λ a, ∀ k x' y', dict_get a k = Some (x', y') →
                             at_depth edges pm x0 xs k x')); [| |exact Hrun].
  - intros k x' y'. rewrite dict_get_set. case_decide.
    + intros ?; simplify_eq. done.
    + apply Hpos.
  - intros call a1 a2 Hcall Ha1 Hstep.
    apply (IH _ _ _ _ _ Hstep); [|done].
    rewrite (child_calls_column _ _ _ _ _ _ _ Hcall).
    eapply at_depth_child; [done|]. by eapply elem_of_child_calls.
Qed.

(** The two loops of [position_nodes] keep a property of the dictionary
    that every top-level [position_port] call keeps. *)
Lemma position_nodes_inv edges pm xs ys fuel x y pos (P : positions → Prop) :
  P [] →
  (∀ p y' pos1 pos2,
     p ∈ dict_keys pm → P pos1 →
     position_port edges xs ys fuel p x y' pos1 = Some pos2 → P pos2) →
  position_nodes edges pm xs ys fuel x y = Some pos → P pos.
Proof.
  intros Hnil Hstep. unfold position_nodes, place_cameras, place_rest.
  destruct (for_each (sorted_str (Monitor.cameras pm)) _ (y, []))
    as [[y1 pos1]|] eqn:Hcams; simpl; [|done].
  apply (for_each_inv (λ a : Z * positions, P a.2)) in Hcams; [|done|].
  - apply for_each_inv; [done|].
    intros p a1 a2 Hp Ha1. case_bool_decide; [by intros ?; simplify_eq|].
    by apply Hstep.
  - intros c [y2 pos2] [y3 pos3] Hc Ha1. simpl in *.
    destruct (position_port edges xs ys fuel c x y2 pos2) as [pos4|] eqn:Hp;
      simpl; [|done].
    intros ?; simplify_eq. eapply Hstep; [|done..].
    by apply cameras_keys, (elem_of_merge_sort String.le).
Qed.

Lemma position_port_keys_sub edges xs ys fuel (p : string) x y pos r :
  position_port edges xs ys fuel p x y pos = Some r →
  ∀ k, k ∈ dict_keys r → k ∈ dict_keys pos ∨ rtc (child_of edges) p k.
Proof.
  revert p x y pos r.
  induction fuel as [|fuel IH]; intros p x y pos r; simpl; [done|].
  intros Hrun.
  eapply (for_each_inv
            (λ a, ∀ k, k ∈ dict_keys a →
                       k ∈ dict_keys pos ∨ rtc (child_of edges) p k));
    [| |exact Hrun].
  - intros k [->|?]%dict_keys_set; [by right|by left].
  - intros call a1 a2 Hcall Ha1 Hstep k Hk.
    destruct (IH _ _ _ _ _ Hstep k Hk) as [Hk1|Hk1]; [by apply Ha1|].
    right. eapply rtc_l; [|done]. by eapply elem_of_child_calls.
Qed.

Lemma no_parent_rtc edges (q k : string) :
  (∀ s, ¬ child_of edges s k) → rtc (child_of edges) q k → q = k.
Proof. intros Hk [?|(s & _ & Hs)]%rtc_inv_r; [done|]. by destruct (Hk s). Qed.

(** A port that no edge leads into stays where its own call puts it. *)
Lemma position_port_self edges xs ys fuel (p : string) x y pos r :
  (∀ s, ¬ child_of edges s p) →
  position_port edges xs ys fuel p x y pos = Some r →
  dict_get r p = Some (x, y).
Proof.
  intros Hp. destruct fuel as [|fuel]; simpl; [done|]. intros Hrun.
  eapply (for_each_inv (λ a, dict_get a p = Some (x, y))); [| |exact Hrun].
  - rewrite dict_get_set. by rewrite decide_True.
  - intros call a1 a2 Hcall Ha1 Hstep. rewrite <-Ha1.
    apply (position_port_frame _ _ _ _ _ _ _ _ _ Hstep).
    intros Heq%(no_parent_rtc _ _ _ Hp).
    apply elem_of_child_calls in Hcall as [_ Hne]. by rewrite Heq in Hne.
Qed.

(** Every key of the port map is placed (the loops reach each of them). *)
Lemma position_nodes_has_keys edges pm xs ys fuel x y pos (p : string) :
  position_nodes edges pm xs ys fuel x y = Some pos →
  p ∈ dict_keys pm → p ∈ dict_keys pos.
Proof.
  unfold position_nodes, place_rest.
  destruct (place_cameras edges pm xs ys fuel x y) as [[y1 pos1]|];
    simpl; [|done].
  intros Hrest Hp.
  apply (for_each_run keys_incl) in Hrest as [_ Hrest].
  - destruct (Hrest p Hp) as (a1 & a2 & Ha & _ & Hr).
    apply Hr. case_bool_decide; simplify_eq; [done|].
    apply position_port_keys in Ha as [_ Ha]. apply Ha, rtc_refl.
  - intros c pos2 pos3. case_bool_decide; [by intros ?; simplify_eq|].
    by intros [? _]%position_port_keys.
Qed.

Lemma position_nodes_depth edges pm xs ys fuel x0 y0 pos :
  position_nodes edges pm xs ys fuel x0 y0 = Some pos →
  ∀ k x y, dict_get pos k = Some (x, y) → at_depth edges pm x0 xs k x.
Proof.
  intros Hrun0.
  eapply (position_nodes_inv _ _ _ _ _ _ _ _
            (λ a, ∀ k x y, dict_get a k = Some (x, y) →
                           at_depth edges pm x0 xs k x)); [| |exact Hrun0].
  - done.
  - intros p y' pos1 pos2 Hp Hpos1 Hrun.
    eapply position_port_depth; [done| |done]. by apply at_depth_root.
Qed.

Lemma chain_last_parent edges (root k : string) l :
  chain edges root l → l ≠ [] → last (root :: l) = Some k →
  ∃ s, child_of edges s k.
Proof.
  revert root. induction l as [|d l IH]; intros root Hch Hne Hlast; [done|].
  destruct Hch as [Hd Hl]. destruct l as [|d' l].
  - simpl in Hlast. simplify_eq. eauto.
  - apply (IH d); [done..|]. exact Hlast.
Qed.

Lemma placed_key_or_destination edges pm xs ys fuel x0 y0 pos
    (k : string) x y :
  position_nodes edges pm xs ys fuel x0 y0 = Some pos →
  dict_get pos k = Some (x, y) →
  k ∈ dict_keys pm ∨ ∃ s, (s, k) ∈ edges ∧ s ≠ k.
Proof.
  intros Hrun Hk.
  pose proof (position_nodes_depth _ _ _ _ _ _ _ _ Hrun k x y Hk)
    as (root & l & Hroot & Hl & Hlast & Hx).
  destruct l as [|d l].
  - simpl in Hlast. simplify_eq. by left.
  - right. by eapply chain_last_parent.
Qed.

(** The column of a port is its depth, for integer spacings and start
    (which Python computes exactly).  Every port in the result ends a
    descent, along edges between different ports, that starts at a key of
    the port map, and its x is [x0] plus [x_spacing] times the number of
    edges of that descent; so a placed port is a key of the port map or
    the destination of an edge, and nothing else is ever placed. *)
Theorem position_nodes_column_is_depth edges pm xs ys fuel x0 y0 pos
    (k : string) x y :
  position_nodes edges pm xs ys fuel x0 y0 = Some pos →
  dict_get pos k = Some (x, y) →
  (∃ root l, root ∈ dict_keys pm ∧ chain edges root l ∧
             last (root :: l) = Some k ∧
             x = x0 + Z.of_nat (length l) * xs) ∧
  (k ∈ dict_keys pm ∨ ∃ s, (s, k) ∈ edges ∧ s ≠ k).
Proof.
  intros Hrun Hk.
  pose proof (position_nodes_depth _ _ _ _ _ _ _ _ Hrun k x y Hk)
    as (root & l & Hroot & Hl & Hlast & Hx).
  split; [by exists root, l|].
  destruct l as [|d l].
  - simpl in Hlast. simplify_eq. by left.
  - right. by eapply chain_last_parent.
Qed.

Lemma position_nodes_column_is_depth_witness :
  let edges := [("camA", "pluginA"); ("pluginA", "ghost")] in
  let pos := [("camA", (0, 0)); ("pluginA", (150, 0)); ("ghost", (300, 0))] in
  position_nodes edges [camA; pluginA] 150 60 3 0 0 = Some pos ∧
  dict_get pos "ghost" = Some (300, 0) ∧
  ∃ root l, root ∈ dict_keys [camA; pluginA] ∧ chain edges root l ∧
            last (root :: l) = Some "ghost" ∧
            300 = 0 + Z.of_nat (length l) * 150.
Proof.
  intros edges pos.
  assert (position_nodes edges [camA; pluginA] 150 60 3 0 0 = Some pos)
    as Hrun by (by vm_compute).
  assert (dict_get pos "ghost" = Some (300, 0)) as Hk by (by vm_compute).
  split; [exact Hrun|]. split; [exact Hk|].
  exact (proj1 (position_nodes_column_is_depth edges [camA; pluginA] 150 60 3
                  0 0 pos "ghost" 300 0 Hrun Hk)).
Defined.

(** Only descendants of the port map are placed.  Every port in the result
    ends a descent, along edges between different ports, that starts at a
    key of the port map; so it is a key of the port map or the destination
    of an edge from another port.  (This is about which ports are placed,
    whatever the numbers are.) *)
Theorem position_nodes_places_descendants edges pm xs ys fuel x0 y0 pos
    (k : string) :
  position_nodes edges pm xs ys fuel x0 y0 = Some pos →
  k ∈ dict_keys pos →
  (∃ root l, root ∈ dict_keys pm ∧ chain edges root l ∧
             last (root :: l) = Some k) ∧
  (k ∈ dict_keys pm ∨ ∃ s, (s, k) ∈ edges ∧ s ≠ k).
Proof.
  intros Hrun [[x y] Hk]%dict_get_is_Some.
  pose proof (position_nodes_depth _ _ _ _ _ _ _ _ Hrun k x y Hk)
    as (root & l & Hroot & Hl & Hlast & _).
  split; [by exists root, l|].
  by eapply placed_key_or_destination.
Qed.

Lemma position_nodes_places_descendants_witness :
  let edges := [("camA", "pluginA"); ("pluginA", "ghost"); ("x", "y")] in
  let pos := [("camA", (0, 0)); ("pluginA", (150, 0)); ("ghost", (300, 0))] in
  position_nodes edges [camA; pluginA] 150 60 3 0 0 = Some pos ∧
  "ghost" ∈ dict_keys pos ∧
  ∃ root l, root ∈ dict_keys [camA; pluginA] ∧ chain edges root l ∧
            last (root :: l) = Some "ghost".
Proof.
  intros edges pos.
  assert (position_nodes edges [camA; pluginA] 150 60 3 0 0 = Some pos)
    as Hrun by (by vm_compute).
  assert ("ghost" ∈ dict_keys pos) as Hk by (do 2 right; left).
  split; [exact Hrun|]. split; [exact Hk|].
  exact (proj1 (position_nodes_places_descendants edges [camA; pluginA]
                  150 60 3 0 0 pos "ghost" Hrun Hk)).
Defined.

(** A key of the port map that no edge leads into is placed in the first
    column, at the [x] that [position_nodes] was called with. *)
Theorem position_nodes_roots_first_column edges pm xs ys fuel x0 y0 pos
    (k : string) :
  position_nodes edges pm xs ys fuel x0 y0 = Some pos →
  k ∈ dict_keys pm → (∀ s, ¬ child_of edges s k) →
  ∃ y, dict_get pos k = Some (x0, y).
Proof.
  intros Hrun Hk Hroot.
  pose proof (position_nodes_has_keys _ _ _ _ _ _ _ _ k Hrun Hk)
    as [[x y] Hget]%dict_get_is_Some.
  exists y. rewrite Hget. do 2 f_equal.
  pose proof (position_nodes_depth _ _ _ _ _ _ _ _ Hrun k x y Hget)
    as (root & l & _ & Hl & Hlast & ->).
  destruct l as [|d l]; [simpl; lia|].
  destruct (chain_last_parent edges root k (d :: l)) as [s Hs]; [done..|].
  by destruct (Hroot s).
Qed.

Lemma position_nodes_roots_first_column_witness :
  let edges := [("camA", "pluginA")] in
  let pm := [camA; pluginA; ("pluginB", mkPlugin false None)] in
  (∃ pos, position_nodes edges pm 150 60 2 7 0 = Some pos) ∧
  "pluginB" ∈ dict_keys pm ∧ (∀ s, ¬ child_of edges s "pluginB") ∧
  position_nodes edges pm 150 60 2 7 0
  = Some [("camA", (7, 0)); ("pluginA", (157, 0)); ("pluginB", (7, 60))].
Proof.
  intros edges pm.
  assert (position_nodes edges pm 150 60 2 7 0
          = Some [("camA", (7, 0)); ("pluginA", (157, 0));
                  ("pluginB", (7, 60))]) as Hrun by (by vm_compute).
  assert ("pluginB" ∈ dict_keys pm) as Hk by (do 2 right; left).
  assert (∀ s, ¬ child_of edges s "pluginB") as Hroot.
  { intros s [Hin _]. unfold edges in Hin.
    by apply list_elem_of_singleton in Hin. }
  pose proof (position_nodes_roots_first_column edges pm 150 60 2 7 0 _
                "pluginB" Hrun Hk Hroot) as Hcol.
  split; [by eexists|]. split; [exact Hk|]. split; [exact Hroot|]. exact Hrun.
Defined.

(** What the loop over the cameras places descends from a camera. *)
Lemma place_cameras_reach edges pm xs ys fuel x y y1 pos1 (k : string) :
  place_cameras edges pm xs ys fuel x y = Some (y1, pos1) →
  k ∈ dict_keys pos1 →
  ∃ cam, cam ∈ Monitor.cameras pm ∧ rtc (child_of edges) cam k.
Proof.
  unfold place_cameras. intros Hrun. revert k.
  change (∀ k, k ∈ dict_keys (y1, pos1).2 →
               ∃ cam, cam ∈ Monitor.cameras pm ∧ rtc (child_of edges) cam k).
  eapply (for_each_inv
            (λ a : Z * positions,
               ∀ k, k ∈ dict_keys a.2 →
                    ∃ cam, cam ∈ Monitor.cameras pm ∧
                           rtc (child_of edges) cam k)); [| |exact Hrun].
  - by intros k ?%elem_of_nil.
  - intros c [y2 pos2] [y3 pos3] Hc Ha1. simpl in *.
    destruct (position_port edges xs ys fuel c x y2 pos2) as [pos4|] eqn:Hp;
      simpl; [|done].
    intros ? k Hk; simplify_eq.
    destruct (position_port_keys_sub _ _ _ _ _ _ _ _ _ Hp k Hk) as [?|?];
      [by apply Ha1|].
    exists c. split; [|done]. by apply (elem_of_merge_sort String.le).
Qed.

(** The ports left over share one place.  There is one y such that every
    key of the port map that is not a camera and that no edge leads into
    is placed at ([x0], y): the loop over the ports without a position
    (lines 594-596) calls [position_port] with the same [x] and [y] every
    time. *)
Theorem position_nodes_unplaced_coincide edges pm xs ys fuel x0 y0 pos :
  position_nodes edges pm xs ys fuel x0 y0 = Some pos →
  ∃ y, ∀ p, p ∈ dict_keys pm → p ∉ Monitor.cameras pm →
            (∀ s, ¬ child_of edges s p) → dict_get pos p = Some (x0, y).
Proof.
  intros Hrun. pose proof Hrun as Hrun0. revert Hrun.
  unfold position_nodes, place_rest.
  destruct (place_cameras edges pm xs ys fuel x0 y0) as [[y1 pos1]|] eqn:Hcams;
    simpl; [|done].
  set (yr := match pos1 with [] => y0 | _ :: _ => ys + max_y pos1 end).
  intros Hrest. exists yr. intros p Hp Hcam Hroot.
  assert (dict_get pos p = None ∨ dict_get pos p = Some (x0, yr)) as [Hn|Hs].
  { eapply (for_each_inv
              (λ a, dict_get a p = None ∨ dict_get a p = Some (x0, yr)));
      [| |exact Hrest].
    - left. apply dict_get_None. intros Hk.
      destruct (place_cameras_reach _ _ _ _ _ _ _ _ _ _ Hcams Hk)
        as (cam & Hc & Hreach).
      apply (no_parent_rtc _ _ _ Hroot) in Hreach. by subst.
    - intros b a1 a2 Hb Ha1. cbv beta.
      case_bool_decide; [by intros ?; simplify_eq|].
      intros Hstep. destruct (decide (b = p)) as [->|Hne].
      + right. by eapply position_port_self.
      + rewrite (position_port_frame _ _ _ _ _ _ _ _ _ Hstep); [done|].
        by intros ?%(no_parent_rtc _ _ _ Hroot). }
  - apply dict_get_None in Hn. destruct Hn.
    by eapply position_nodes_has_keys.
  - done.
Qed.

Lemma position_nodes_unplaced_coincide_witness :
  let pm := [camA; ("p1", mkPlugin false None); ("p2", mkPlugin false None)] in
  position_nodes [] pm 150 60 1 0 0
  = Some [("camA", (0, 0)); ("p1", (0, 60)); ("p2", (0, 60))] ∧
  ∃ y, ∀ p, p ∈ dict_keys pm → p ∉ Monitor.cameras pm →
            (∀ s, ¬ child_of [] s p) →
            dict_get [("camA", (0, 0)); ("p1", (0, 60)); ("p2", (0, 60))] p
            = Some (0, y).
Proof.
  intros pm.
  assert (position_nodes [] pm 150 60 1 0 0
          = Some [("camA", (0, 0)); ("p1", (0, 60)); ("p2", (0, 60))])
    as Hrun by (by vm_compute).
  split; [exact Hrun|].
  exact (position_nodes_unplaced_coincide [] pm 150 60 1 0 0 _ Hrun).
Defined.

(** *** The rows of the cameras *)

Lemma for_each_app_Some {A B} (l1 l2 : list B) (f : B → A → option A)
    (a r : A) :
  for_each (l1 ++ l2) f a = Some r →
  ∃ a', for_each l1 f a = Some a' ∧ for_each l2 f a' = Some r.
Proof.
  revert a. induction l1 as [|b l1 IH]; intros a; simpl; [by eauto|].
  destruct (f b a) as [a'|]; simpl; [|done]. apply IH.
Qed.

Lemma foldl_max_ge (l : list Z) (a : Z) :
  a ≤ foldl Z.max a l ∧ ∀ z, z ∈ l → z ≤ foldl Z.max a l.
Proof.
  revert a. induction l as [|b l IH]; intros a; simpl.
  - split; [lia|]. by intros z ?%elem_of_nil.
  - destruct (IH (Z.max a b)) as [Ha Hl]. split; [lia|].
    intros z [->|Hz]%elem_of_cons; [lia|by apply Hl].
Qed.

(** [max_y] is at least every y of the dictionary. *)
Lemma max_y_ge pos (k : string) x y :
  dict_get pos k = Some (x, y) → y ≤ max_y pos.
Proof.
  intros Hk%dict_get_Some.
  assert (y ∈ pos.*2.*2) as Hy.
  { apply list_elem_of_fmap. exists (x, y). split; [done|].
    apply list_elem_of_fmap. by exists (k, (x, y)). }
  unfold max_y. destruct (pos.*2.*2) as [|y' l]; [by apply elem_of_nil in Hy|].
  destruct (foldl_max_ge l y') as [H1 H2].
  apply elem_of_cons in Hy as [->|Hy]; [done|by apply H2].
Qed.

Lemma cameras_NoDup pm : NoDup (dict_keys pm) → NoDup (Monitor.cameras pm).
Proof.
  unfold dict_keys, Monitor.cameras. intros Hnd.
  eapply sublist_NoDup; [exact Hnd|]. apply fmap_sublist, sublist_filter.
Qed.

(** One turn of the loop over the cameras, for a camera that no edge leads
    into: it is placed at the cursor, and the cursor moves below it. *)
Lemma camera_turn edges xs ys fuel x0 (c : string) (a b : Z * positions) :
  (∀ s, ¬ child_of edges s c) →
  (let '(y, pos) := a in
   pos' ← position_port edges xs ys fuel c x0 y pos;
   Some (ys + max_y pos', pos')) = Some b →
  dict_get b.2 c = Some (x0, a.1) ∧ a.1 + ys ≤ b.1.
Proof.
  intros Hroot. destruct a as [y pos], b as [y' pos'].
  destruct (position_port edges xs ys fuel c x0 y pos) as [pos2|] eqn:Hp;
    simpl; [|done].
  intros ?; simplify_eq.
  pose proof (position_port_self _ _ _ _ _ _ _ _ _ Hroot Hp) as Hc.
  split; [done|]. pose proof (max_y_ge _ _ _ _ Hc). lia.
Qed.

(** Later turns, for other cameras, leave it there and keep the cursor
    below it. *)
Lemma cameras_keep edges xs ys fuel x0 (k : string) yk (l : list string)
    (a r : Z * positions) :
  (∀ s, ¬ child_of edges s k) → (∀ c, c ∈ l → c ≠ k) →
  for_each l (λ camera '(y, pos),
                pos' ← position_port edges xs ys fuel camera x0 y pos;
                Some (ys + max_y pos', pos')) a = Some r →
  dict_get a.2 k = Some (x0, yk) ∧ yk + ys ≤ a.1 →
  dict_get r.2 k = Some (x0, yk) ∧ yk + ys ≤ r.1.
Proof.
  intros Hroot Hne Hrun Ha.
  eapply (for_each_inv
            (λ a : Z * positions,
               dict_get a.2 k = Some (x0, yk) ∧ yk + ys ≤ a.1));
    [exact Ha| |exact Hrun].
  intros c [y1 pos1] [y2 pos2] Hc [Hk Hy]. simpl in *.
  destruct (position_port edges xs ys fuel c x0 y1 pos1) as [pos3|] eqn:Hp;
    simpl; [|done].
  intros ?; simplify_eq.
  assert (dict_get pos2 k = Some (x0, yk)) as Hk2.
  { rewrite (position_port_frame _ _ _ _ _ _ _ _ _ Hp); [done|].
    intros ?%(no_parent_rtc _ _ _ Hroot). by apply (Hne c). }
  split; [done|]. pose proof (max_y_ge _ _ _ _ Hk2). lia.
Qed.

(** The loop over the ports without a position leaves a placed port that
    no edge leads into where it is. *)
Lemma place_rest_keep edges pm xs ys fuel x y pos1 pos (k : string)
    (v : Z * Z) :
  (∀ s, ¬ child_of edges s k) →
  place_rest edges pm xs ys fuel x y pos1 = Some pos →
  dict_get pos1 k = Some v → dict_get pos k = Some v.
Proof.
  intros Hroot Hrun Hk1.
  eapply (for_each_inv (λ a, dict_get a k = Some v)); [exact Hk1| |exact Hrun].
  intros b a1 a2 Hb Ha1. cbv beta.
  case_bool_decide as Hin; [by intros ?; simplify_eq|].
  intros Hstep. rewrite (position_port_frame _ _ _ _ _ _ _ _ _ Hstep); [done|].
  intros ->%(no_parent_rtc _ _ _ Hroot).
  apply Hin, dict_get_is_Some. by rewrite Ha1.
Qed.

Lemma cameras_apart_in_order edges pm xs ys fuel x0 y0 pos
    (c1 c2 : string) (l1 l2 l3 : list string) :
  sorted_str (Monitor.cameras pm) = l1 ++ c1 :: l2 ++ c2 :: l3 →
  NoDup (sorted_str (Monitor.cameras pm)) →
  position_nodes edges pm xs ys fuel x0 y0 = Some pos →
  (∀ s, ¬ child_of edges s c1) → (∀ s, ¬ child_of edges s c2) →
  ∃ y1 y2, dict_get pos c1 = Some (x0, y1) ∧
           dict_get pos c2 = Some (x0, y2) ∧ y1 + ys ≤ y2.
Proof.
  intros Hsplit Hnd Hrun Hr1 Hr2. revert Hrun.
  unfold position_nodes, place_cameras. rewrite Hsplit in Hnd |- *.
  destruct (for_each (l1 ++ c1 :: l2 ++ c2 :: l3) _ (y0, []))
    as [[yf posf]|] eqn:Hcams; simpl; [|done].
  intros Hrest.
  apply NoDup_app in Hnd as (_ & _ & Hnd).
  apply NoDup_cons in Hnd as [Hc1 Hnd].
  apply NoDup_app in Hnd as (_ & _ & Hnd).
  apply NoDup_cons in Hnd as [Hc2 _].
  apply for_each_app_Some in Hcams as (a1 & _ & Hcams).
  simpl in Hcams.
  destruct (let '(y, pos) := a1 in _) as [a2|] eqn:Hturn1; simpl in Hcams;
    [|done].
  apply camera_turn in Hturn1 as Hk1; [|done].
  pose proof Hcams as Hall.
  apply (cameras_keep _ _ _ _ _ c1 a1.1) in Hall as [Hf1 _];
    [|done| |done].
  2:{ intros c Hc ->. done. }
  apply for_each_app_Some in Hcams as (a3 & Hseg & Hcams).
  apply (cameras_keep _ _ _ _ _ c1 a1.1) in Hseg as [_ Hy3];
    [|done| |done].
  2:{ intros c Hc ->. apply Hc1, elem_of_app. by left. }
  simpl in Hcams.
  destruct (let '(y, pos) := a3 in _) as [a4|] eqn:Hturn2; simpl in Hcams;
    [|done].
  apply camera_turn in Hturn2 as Hk2; [|done].
  apply (cameras_keep _ _ _ _ _ c2 a3.1) in Hcams as [Hf2 _];
    [|done| |done].
  2:{ intros c Hc ->. done. }
  exists a1.1, a3.1. simpl in Hf1, Hf2. split_and!; [| |lia].
  - by eapply place_rest_keep.
  - by eapply place_rest_keep.
Qed.

(** The cameras get rows of their own, for integer spacings and start
    (which Python computes exactly).  In a dictionary (keys unique), two
    different cameras that no edge leads into are both placed at [x0], and
    the one that comes later in the sorted order is at least [y_spacing]
    further down than the other. *)
Theorem position_nodes_cameras_apart edges pm xs ys fuel x0 y0 pos
    (c1 c2 : string) :
  NoDup (dict_keys pm) →
  position_nodes edges pm xs ys fuel x0 y0 = Some pos →
  c1 ∈ Monitor.cameras pm → c2 ∈ Monitor.cameras pm → c1 ≠ c2 →
  (∀ s, ¬ child_of edges s c1) → (∀ s, ¬ child_of edges s c2) →
  ∃ y1 y2, dict_get pos c1 = Some (x0, y1) ∧
           dict_get pos c2 = Some (x0, y2) ∧
           (y1 + ys ≤ y2 ∨ y2 + ys ≤ y1).
Proof.
  intros Hnd%cameras_NoDup%(NoDup_merge_sort String.le) Hrun
    H1%(elem_of_merge_sort String.le) H2%(elem_of_merge_sort String.le)
    Hne Hr1 Hr2.
  fold (sorted_str (Monitor.cameras pm)) in Hnd, H1, H2.
  apply list_elem_of_split in H1 as (l1 & l' & Hsplit).
  rewrite Hsplit in H2.
  apply elem_of_app in H2 as [H2|[?|H2]%elem_of_cons]; [|done|].
  - apply list_elem_of_split in H2 as (m1 & m2 & ->).
    rewrite <-app_assoc in Hsplit. simpl in Hsplit.
    destruct (cameras_apart_in_order _ _ _ _ _ _ _ _ _ _ _ _ _
                Hsplit Hnd Hrun Hr2 Hr1) as (y2 & y1 & ? & ? & ?).
    exists y1, y2. auto.
  - apply list_elem_of_split in H2 as (l2 & l3 & ->).
    destruct (cameras_apart_in_order _ _ _ _ _ _ _ _ _ _ _ _ _
                Hsplit Hnd Hrun Hr1 Hr2) as (y1 & y2 & ? & ? & ?).
    exists y1, y2. auto.
Qed.

Lemma position_nodes_cameras_apart_witness :
  let pm := [("camB", mkPlugin true None); pluginA; camA] in
  let edges := [("camA", "pluginA")] in
  NoDup (dict_keys pm) ∧
  position_nodes edges pm 150 60 2 0 0
  = Some [("camA", (0, 0)); ("pluginA", (150, 0)); ("camB", (0, 60))] ∧
  ∃ y1 y2,
    dict_get [("camA", (0, 0)); ("pluginA", (150, 0)); ("camB", (0, 60))]
      "camA" = Some (0, y1) ∧
    dict_get [("camA", (0, 0)); ("pluginA", (150, 0)); ("camB", (0, 60))]
      "camB" = Some (0, y2) ∧
    (y1 + 60 ≤ y2 ∨ y2 + 60 ≤ y1).
Proof.
  intros pm edges.
  assert (NoDup (dict_keys pm)) as Hnd.
  { vm_compute. repeat constructor;
      rewrite ?elem_of_cons, ?elem_of_nil; naive_solver. }
  assert (position_nodes edges pm 150 60 2 0 0
          = Some [("camA", (0, 0)); ("pluginA", (150, 0)); ("camB", (0, 60))])
    as Hrun by (by vm_compute).
  assert (∀ c, c ≠ "pluginA" → ∀ s, ¬ child_of edges s c) as Hroot.
  { intros c Hc s [Hin _]. unfold edges in Hin.
    apply list_elem_of_singleton in Hin. by simplify_eq. }
  split; [exact Hnd|]. split; [exact Hrun|].
  apply (position_nodes_cameras_apart edges pm 150 60 2 0 0 _ "camA" "camB"
           Hnd Hrun).
  - vm_compute. right. left.
  - vm_compute. left.
  - done.
  - by apply Hroot.
  - by apply Hroot.
Defined.

(** *** Self-edges and the starting point *)

Lemma dests_without_self_edges edges (p : string) :
  dests (without_self_edges edges) p = dests edges p.
Proof.
  unfold dests, without_self_edges. f_equal.
  induction edges as [|e edges IH]; [done|].
  rewrite !filter_cons.
  destruct (decide (e.1 ≠ e.2)) as [Hne|Heq].
  - rewrite filter_cons. by rewrite IH.
  - rewrite IH. rewrite decide_False; [done|]. by intros [_ ?].
Qed.

Lemma position_port_without_self_edges edges xs ys fuel (p : string) x y pos :
  position_port (without_self_edges edges) xs ys fuel p x y pos
  = position_port edges xs ys fuel p x y pos.
Proof.
  revert p x y pos.
  induction fuel as [|fuel IH]; intros p x y pos; simpl; [done|].
  unfold child_calls. rewrite dests_without_self_edges.
  apply for_each_ext. intros ???. apply IH.
Qed.

(** Self-edges do not show in the layout: with and without them,
    [position_nodes] gives the same result. *)
Theorem position_nodes_ignores_self_edges edges pm xs ys fuel x y :
  position_nodes (without_self_edges edges) pm xs ys fuel x y
  = position_nodes edges pm xs ys fuel x y.
Proof.
  unfold position_nodes.
  assert (place_cameras (without_self_edges edges) pm xs ys fuel x y
          = place_cameras edges pm xs ys fuel x y) as ->.
  { apply for_each_ext. intros c [y' pos'] _.
    by rewrite position_port_without_self_edges. }
  destruct (place_cameras edges pm xs ys fuel x y) as [[y' pos']|];
    simpl; [|done].
  apply for_each_ext. intros c pos'' _.
  by rewrite position_port_without_self_edges.
Qed.

(** A loop over the image of a list, from the image of a state, when the
    bodies commute with the two maps. *)
Lemma for_each_fmap {A B} (g : B → B) (h : A → A) (l : list B)
    (f1 f2 : B → A → option A) (a : A) :
  (∀ b a', b ∈ l → f2 (g b) (h a') = h <$> f1 b a') →
  for_each (g <$> l) f2 (h a) = h <$> for_each l f1 a.
Proof.
  revert a. induction l as [|b l IH]; intros a Hf; simpl; [done|].
  rewrite (Hf b a) by left. destruct (f1 b a) as [a'|]; simpl; [|done].
  apply IH. intros ???. apply Hf. by right.
Qed.

Lemma dict_set_shifted dx dy pos (k : string) x y :
  dict_set k (x + dx, y + dy) (shifted dx dy pos)
  = shifted dx dy (dict_set k (x, y) pos).
Proof.
  unfold shifted. induction pos as [|[k' [x' y']] pos IH]; csimpl; [done|].
  case_decide; csimpl; [done|]. by rewrite IH.
Qed.

Lemma dict_keys_shifted dx dy pos :
  dict_keys (shifted dx dy pos) = dict_keys pos.
Proof.
  unfold dict_keys, shifted. rewrite <-list_fmap_compose.
  by apply list_fmap_ext.
Qed.

Lemma child_calls_shifted edges xs ys (p : string) x y dx dy :
  child_calls edges xs ys p (x + dx) (y + dy)
  = (λ call : string * (Z * Z), (call.1, (call.2.1 + dx, call.2.2 + dy)))
      <$> child_calls edges xs ys p x y.
Proof.
  unfold child_calls. rewrite <-list_fmap_compose.
  apply list_fmap_ext. intros i [idx d] _. simpl. f_equal. f_equal; lia.
Qed.

Lemma position_port_shifted edges xs ys fuel (p : string) x y pos dx dy :
  position_port edges xs ys fuel p (x + dx) (y + dy) (shifted dx dy pos)
  = shifted dx dy <$> position_port edges xs ys fuel p x y pos.
Proof.
  revert p x y pos.
  induction fuel as [|fuel IH]; intros p x y pos; simpl; [done|].
  rewrite child_calls_shifted, dict_set_shifted.
  apply for_each_fmap. intros call a' _. simpl. apply IH.
Qed.

Lemma foldl_max_shift (l : list Z) (a d : Z) :
  foldl Z.max (a + d) ((λ z, z + d) <$> l) = foldl Z.max a l + d.
Proof.
  revert a. induction l as [|b l IH]; intros a; simpl; [done|].
  rewrite <-IH. f_equal. lia.
Qed.

Lemma max_y_shifted dx dy pos :
  pos ≠ [] → max_y (shifted dx dy pos) = max_y pos + dy.
Proof.
  destruct pos as [|[k [x y]] pos]; [done|]. intros _.
  unfold max_y, shifted. simpl. rewrite <-foldl_max_shift. f_equal.
  rewrite <-!list_fmap_compose. by apply list_fmap_ext.
Qed.

(** The layout is relative to its starting point, for integer spacings,
    start and offsets (which Python computes exactly): starting at
    ([x] + [dx], [y] + [dy]) instead of ([x], [y]) moves every position by
    ([dx], [dy]) and changes nothing else. *)
Theorem position_nodes_shift edges pm xs ys fuel x y dx dy :
  position_nodes edges pm xs ys fuel (x + dx) (y + dy)
  = shifted dx dy <$> position_nodes edges pm xs ys fuel x y.
Proof.
  unfold position_nodes.
  assert (place_cameras edges pm xs ys fuel (x + dx) (y + dy)
          = (λ a : Z * positions, (a.1 + dy, shifted dx dy a.2))
              <$> place_cameras edges pm xs ys fuel x y) as ->.
  { unfold place_cameras.
    rewrite <-(list_fmap_id (sorted_str (Monitor.cameras pm))) at 1.
    apply (for_each_fmap id (λ a : Z * positions,
                               (a.1 + dy, shifted dx dy a.2))
             (sorted_str (Monitor.cameras pm))
             (λ camera '(y, pos),
                pos' ← position_port edges xs ys fuel camera x y pos;
                Some (ys + max_y pos', pos'))
             (λ camera '(y, pos),
                pos' ← position_port edges xs ys fuel camera (x + dx) y pos;
                Some (ys + max_y pos', pos'))
             (y, [])).
    intros c [y1 pos1] _. simpl. rewrite position_port_shifted.
    destruct (position_port edges xs ys fuel c x y1 pos1) as [pos2|] eqn:Hp;
      simpl; [|done].
    rewrite max_y_shifted by (by eapply position_port_nonempty).
    do 2 f_equal. lia. }
  destruct (place_cameras edges pm xs ys fuel x y) as [[y1 pos1]|];
    simpl; [|done].
  unfold place_rest.
  assert (match shifted dx dy pos1 with
          | [] => y + dy
          | _ :: _ => ys + max_y (shifted dx dy pos1)
          end
          = match pos1 with [] => y | _ :: _ => ys + max_y pos1 end + dy)
    as ->.
  { destruct pos1 as [|item pos1]; [done|].
    change (shifted dx dy (item :: pos1))
      with ((item.1, (item.2.1 + dx, item.2.2 + dy)) :: shifted dx dy pos1).
    cbv iota.
    change ((item.1, (item.2.1 + dx, item.2.2 + dy)) :: shifted dx dy pos1)
      with (shifted dx dy (item :: pos1)).
    rewrite max_y_shifted by done. lia. }
  rewrite <-(list_fmap_id (dict_keys pm)) at 1.
  apply (for_each_fmap id (shifted dx dy)).
  intros c pos2 _. simpl. rewrite dict_keys_shifted.
  case_bool_decide; [done|]. apply position_port_shifted.
Qed.

End layout_more.

(** * The flowchart's handler *)

Section handler_facts.
Import Monitor Handler.
Implicit Types (fc : flowchart) (pm : list (string * Plugin)).
Implicit Types (nodes : gset string) (st : state).

Lemma add_ports_ok pm (added : list string) nodes :
  (∀ p, p ∈ added → p ∈ dict_keys pm) →
  add_ports pm added nodes = (list_to_set added ∪ nodes, None).
Proof.
  revert nodes. induction added as [|p added IH]; intros nodes Hin; simpl.
  - f_equal. set_solver.
  - destruct (dict_get pm p) as [cpt|] eqn:Hp.
    + rewrite IH; [|intros ??; apply Hin; by right]. f_equal. set_solver.
    + apply dict_get_None in Hp. destruct Hp. apply Hin. left.
Qed.

Lemma set_positions_ok nodes (pos : Layout.positions) :
  (∀ k, k ∈ dict_keys pos → k ∈ nodes) → set_positions nodes pos = None.
Proof.
  induction pos as [|[k v] pos IH]; intros Hk; simpl; [done|].
  rewrite bool_decide_eq_true_2; [|apply Hk; left].
  apply IH. intros ??. apply Hk. by right.
Qed.

(** The handler finds a node for every port it adds, connects and places.
    When every edge of the flowchart joins two ports that have a node and
    every port the monitor knew has a node, then on the report of
    [update_ports] the handler, from its [ports_added] loop on, raises
    nothing wherever the layout returns: each added port is in the port
    map, and each positioned port has a node.  Afterwards the nodes are
    the old ones and the added ports, and every edge of the flowchart
    still joins two ports that have a node. *)
Theorem ports_updated_tail_finds_nodes (fuel : nat) fc st pm (E : gset edge)
    (res : flowchart * list edge * option exn) :
  edges_have_nodes fc →
  (∀ p, p ∈ known_ports st → p ∈ _port_nodes fc) →
  ports_updated_tail fuel fc pm (diff st pm E) = Some res →
  res.2 = None ∧
  _port_nodes res.1.1
  = list_to_set (ports_added (diff st pm E)) ∪ _port_nodes fc ∧
  (∀ p, p ∈ dict_keys pm → p ∈ _port_nodes res.1.1) ∧
  edges_have_nodes res.1.1.
Proof.
  intros Hedges Hknown. unfold ports_updated_tail.
  rewrite add_ports_ok; [|by intros p [? _]%elem_of_ports_added].
  set (nodes := list_to_set (ports_added (diff st pm E)) ∪ _port_nodes fc).
  destruct (Flowchart.connect_added nodes (edges_added (diff st pm E))
              (_edges fc)) as [es skipped] eqn:Hconn.
  assert (∀ e, e ∈ es → e.1 ∈ nodes ∧ e.2 ∈ nodes) as Hes.
  { intros e He.
    destruct (connect_added_acc nodes (edges_added (diff st pm E))
                (_edges fc, []) e) as [Hiff _].
    unfold Flowchart.connect_added in Hconn. rewrite Hconn in Hiff.
    apply Hiff in He as [He|(_ & ? & ?)]; [|done].
    destruct (Hedges e He). subst nodes. set_solver. }
  assert (∀ p, p ∈ dict_keys pm → p ∈ nodes) as Hpm.
  { intros p Hp. subst nodes. apply elem_of_union.
    destruct (decide (p ∈ known_ports st)); [right; by apply Hknown|].
    left. apply elem_of_list_to_set. by apply elem_of_ports_added. }
  destruct (Layout.position_nodes (elements es) pm 150 60 fuel 0 0)
    as [pos|] eqn:Hpos; simpl; [|done].
  intros ?; simplify_eq. simpl. split_and!; [|done..].
  apply set_positions_ok. intros k [[x y] Hk]%dict_get_is_Some.
  destruct (placed_key_or_destination _ _ _ _ _ _ _ _ _ _ _ Hpos Hk)
    as [?|(s & Hin & _)]; [by apply Hpm|].
  apply elem_of_elements in Hin. by destruct (Hes _ Hin).
Qed.

Lemma ports_updated_tail_finds_nodes_witness :
  let pm := [camA; ("pluginA", mkPlugin false (Some "ghost"))] in
  let fc := mkFlowchart ∅ ∅ in
  let r := diff init pm (get_edges pm) in
  edges_have_nodes fc ∧
  edges_added r = [("ghost", "pluginA")] ∧
  ∃ res, ports_updated_tail 1 fc pm r = Some res ∧
         res.1.2 = [("ghost", "pluginA")] ∧ res.2 = None.
Proof.
  intros pm fc r.
  assert (edges_have_nodes fc) as Hedges by (by intros e ?%not_elem_of_empty).
  assert (∀ p, p ∈ known_ports init → p ∈ _port_nodes fc) as Hknown
    by (by intros p ?%elem_of_nil).
  split; [exact Hedges|]. split; [by vm_compute|].
  destruct (ports_updated_tail 1 fc pm r) as [res|] eqn:Hres;
    [|by vm_compute in Hres].
  exists res. split; [done|]. split.
  - vm_compute in Hres. by simplify_eq.
  - exact (proj1 (ports_updated_tail_finds_nodes 1 fc init pm (get_edges pm)
                    res Hedges Hknown Hres)).
Defined.

End handler_facts.
